(** * AGMMRCalculator: the MMR pipeline of agmod-mmr-api

    A shallow embedding of [AGMMRCalculator] (the rating store, the
    per-match orchestration [processMatch] and its private helpers) and the
    properties its specification states about it.

    Numbers.  A JavaScript [number] is embedded as an exact rational [Q]:
    rounding error and overflow of the IEEE doubles are abstracted away, and
    the ratings, statistics and scores that come from outside are finite.
    The one special value the calculator itself can produce is [NaN], the
    result of dividing the empty sum 0 by the length 0 of an empty array;
    the averages and the differences computed from them therefore live in
    [number], which adds [NaN] to [Q].

    Exceptions.  A function that can throw returns a [result].

    Objects.  The records of a match are shared between [matchDetails] and
    the two rosters and are written in place: they are kept in a heap (the
    list [matchDetails] itself) and the rosters hold positions in it. *)

From Stdlib Require Import QArith Qround Qabs Qminmax Lqa.
From stdpp Require Import base option list strings gmap.

(** ** Numbers *)

Inductive number : Type :=
  | Num (q : Q)
  | NaN.

(** [x / n] for [n] the length of an array.  What the calculator divides by
    the length of an array is always a sum over that array, so that the
    divisor 0 only ever meets the empty sum 0, and [0 / 0] is [NaN]. *)
Definition div_length (x : Q) (n : nat) : number :=
  match n with
  | O => NaN
  | S _ => Num (x / inject_Z (Z.of_nat n))
  end.

(** [a - b]; [NaN] is contagious. *)
Definition nsub (a b : number) : number :=
  match a, b with
  | Num x, Num y => Num (x - y)
  | _, _ => NaN
  end.

(** [Math.abs]. *)
Definition nabs (a : number) : number :=
  match a with
  | Num x => Num (Qabs x)
  | NaN => NaN
  end.

(** [x < y] on finite numbers. *)
Definition Qlt_bool (x y : Q) : bool := negb (Qle_bool y x).

(** [a < b]: a comparison with [NaN] on either side is [false]. *)
Definition nlt (a b : number) : bool :=
  match a, b with
  | Num x, Num y => Qlt_bool x y
  | _, _ => false
  end.

(** [Math.round]: the nearest integer, a tie going up. *)
Definition Math_round (x : Q) : Q := inject_Z (Qfloor (x + (1 # 2))).

(** [Math.max], [Math.min], [Math.abs] on finite numbers. *)
Definition Math_max (a b : Q) : Q := Qmax a b.
Definition Math_min (a b : Q) : Q := Qmin a b.
Definition Math_abs (a : Q) : Q := Qabs a.

(** ** Exceptions *)

Inductive error : Type :=
  | TypeError              (* a property of [undefined] was read *)
  | InsufficientDataError  (* signalled by the performance evaluator *)
  | MalformedMatchError.   (* signalled by the team organizer *)

Inductive result (A : Type) : Type :=
  | Ok (a : A)
  | Err (e : error).
Arguments Ok {A} a.
Arguments Err {A} e.

Definition bind {A B : Type} (r : result A) (k : A -> result B) : result B :=
  match r with
  | Ok a => k a
  | Err e => Err e
  end.

Declare Scope result_scope.
Delimit Scope result_scope with result.
Notation "'try' x <- r ; k" := (bind r (fun x => k))
  (at level 10, x name, r at level 100, k at level 200,
   format "'[v' 'try'  x  <-  r ; '/' k ']'") : result_scope.
Local Open Scope result_scope.

(** [xs.map(f)] for an [f] that may throw: the first exception wins. *)
Fixpoint mapM {A B : Type} (f : A -> result B) (xs : list A) : result (list B) :=
  match xs with
  | [] => Ok []
  | x :: xs' =>
      try y <- f x;
      try ys <- mapM f xs';
      Ok (y :: ys)
  end.

(** ** Data model *)

(** An OpenSkill [Rating]. *)
Record Rating : Type := mkRating { mu : Q; sigma : Q }.

(** The fields of the [Player] entity the calculator reads. *)
Record Player : Type := mkPlayer {
  steamID : string;
  skillMu : Q;
  skillSigma : Q
}.

Inductive TeamColor : Type := Blue | Red.

(** The fields of the [MatchDetail] entity the calculator reads and writes.
    [stats] stands for the combat statistics, which only the performance
    evaluator looks at; the two output fields are unset ([None]) until
    [processMatch] writes them. *)
Record MatchDetail : Type := mkMatchDetail {
  player : Player;
  model : TeamColor;
  stats : list Q;
  mmrAfterMatch : option Q;
  mmrDelta : option Q
}.

Record PlayerPerformance : Type := mkPerformance {
  score : Q;
  adjustment : Q
}.

(** ** Collaborators

    The modules [./performance], [./rating], [./team] and the [openskill]
    package are imported by the calculator; their functions are taken as
    interfaces. *)

Class PerformanceModule : Type := {
  (** the evaluator: a record and its comparison population; it may signal
      that the population does not allow a score *)
  calculateIndividualPerformance :
    MatchDetail -> list MatchDetail -> result PlayerPerformance;
  (** performance, isWinner, team size *)
  calculatePerformanceAdjustment : PlayerPerformance -> bool -> nat -> Q
}.

Class RatingModule : Type := {
  (** the updated rating ([undefined] when the oracle gave none) and the
      performance.  The function is taken to return a number; what it does
      with [undefined] is not in these sources, and no property below says
      that a call on [undefined] returns *)
  calculateInitialMMR : option Rating -> PlayerPerformance -> Q;
  calculateSkillProxy : MatchDetail -> Q;
  calculateInitialRating : Q -> Rating
}.

Class TeamModule : Type := {
  (** the two rosters; the result is compared with ['blue'] and ['red'] *)
  determineWinner : list MatchDetail -> list MatchDetail -> string
}.

Class OpenSkill : Type := {
  (** [rate(teams, { rank })] *)
  rate : list (list Rating) -> list nat -> list (list Rating)
}.

(** [rating({ mu, sigma })] of OpenSkill with both fields given. *)
Definition rating (mu0 sigma0 : Q) : Rating := mkRating mu0 sigma0.

(** ** The calculator's private helpers *)

(** [convertRatingChangeToMMR].  The caller passes [newRatings[teamIdx]?.[idx]],
    which is [undefined] when the oracle's answer is too short; reading
    [.mu] of it throws. *)
Definition convertRatingChangeToMMR
    (oldRating newRating : option Rating) : result Q :=
  match newRating, oldRating with
  | Some newRating, Some oldRating =>
      let muChange := (mu newRating - mu oldRating)%Q in
      let sigmaReduction := Math_max 0 (sigma oldRating - sigma newRating) in
      Ok (muChange * 5 + sigmaReduction * 1.5)%Q
  | _, _ => Err TypeError
  end.

(** [calculateTeamSkill]: the average [mu]; [0 / 0] for an empty array. *)
Definition calculateTeamSkill (ratings : list Rating) : number :=
  let totalMu := fold_left (fun sum r => (sum + mu r)%Q) ratings 0%Q in
  div_length totalMu (length ratings).

(** [calculateBalanceFactor].  [skillDifference > 3] is false for [NaN],
    which leaves the default factor. *)
Definition calculateBalanceFactor (skillDifference : number) (isWinner : bool)
    (playerTeamSkill opponentTeamSkill : number) : Q :=
  let factor :=
    match skillDifference with
    | Num d =>
        if Qlt_bool 3 d then
          let isUpset :=
            (isWinner && nlt playerTeamSkill opponentTeamSkill)
            || (negb isWinner && nlt opponentTeamSkill playerTeamSkill) in
          if isUpset
          then (1.3 + Math_min 0.4 (d / 10))%Q
          else (0.8 - Math_min 0.2 (d / 15))%Q
        else 1%Q
    | NaN => 1%Q
    end in
  Math_max 0.5 (Math_min 1.8 factor).

(** [clampMMRDelta]. *)
Definition clampMMRDelta (mmrDelta : Q) (isWinner : bool) : Q :=
  if isWinner
  then Math_max 2 (Math_min 40 mmrDelta)
  else Math_max (-40) (Math_min (-2) mmrDelta).

(** The teammates of [playerMatch]: the records of [team] with another
    [steamID]. *)
Definition teammatesOf (playerMatch : MatchDetail) (team : list MatchDetail)
    : list MatchDetail :=
  List.filter
    (fun t => negb (String.eqb (steamID (player t)) (steamID (player playerMatch))))
    team.

(** The quadrant table of the carry adjustment, before rounding. *)
Definition carryQuadrant (performanceDifference : Q) (isWinner : bool) : Q :=
  if Qlt_bool 0.4 performanceDifference then
    if negb isWinner
    then Math_min 18 (performanceDifference * 12)
    else Math_min 8 (performanceDifference * 4)
  else if Qlt_bool performanceDifference (-0.4) then
    if isWinner
    then Math_max (-12) (performanceDifference * 8)
    else Math_max (-10) (performanceDifference * 6)
  else 0%Q.

(** The part of [calculateCarryAdjustment] that follows the evaluation of
    the teammates.  With [NaN] for the difference neither the dead-zone test
    nor a quadrant test holds: [carryAdjustment] stays 0. *)
Definition carryFromScores (playerPerformance : PlayerPerformance)
    (teammatePerformances : list PlayerPerformance) (isWinner : bool) : Q :=
  let teammateAvgPerformance :=
    div_length
      (fold_left (fun sum perf => (sum + score perf)%Q) teammatePerformances 0%Q)
      (length teammatePerformances) in
  let performanceDifference :=
    nsub (Num (score playerPerformance)) teammateAvgPerformance in
  match performanceDifference with
  | NaN => Math_round 0
  | Num d =>
      if Qlt_bool (Math_abs d) 0.4 then 0%Q
      else Math_round (carryQuadrant d isWinner)
  end.

(** [calculateCarryAdjustment]. *)
Definition calculateCarryAdjustment `{PerformanceModule}
    (playerMatch : MatchDetail) (team : list MatchDetail)
    (playerPerformance : PlayerPerformance) (isWinner : bool) : result Q :=
  if (length team <? 2)%nat then Ok 0%Q
  else
    let teammates := teammatesOf playerMatch team in
    try teammatePerformances <-
      mapM (fun teammate =>
              let allMatchDetails := team ++ teammates in
              calculateIndividualPerformance teammate allMatchDetails)
           teammates;
    Ok (carryFromScores playerPerformance teammatePerformances isWinner).

(** ** The rating store

    [_playerRatings : Map<string, Rating>], keyed by [steamID]. *)

(** [ensurePlayerRatings]. *)
Definition ensurePlayerRatings (players : list Player)
    (playerRatings : gmap string Rating) : gmap string Rating :=
  fold_left
    (fun ratings player0 =>
       let playerRating := rating (skillMu player0) (skillSigma player0) in
       <[steamID player0 := playerRating]> ratings)
    players playerRatings.

(** [getOrCreatePlayerRating]: the store afterwards and the rating returned. *)
Definition getOrCreatePlayerRating `{RatingModule}
    (playerRatings : gmap string Rating) (steamID0 : string)
    (matchDetail : MatchDetail) : gmap string Rating * Rating :=
  match playerRatings !! steamID0 with
  | Some r => (playerRatings, r)
  | None =>
      let skillProxy := calculateSkillProxy matchDetail in
      let initialRating := calculateInitialRating skillProxy in
      (<[steamID0 := initialRating]> playerRatings, initialRating)
  end.

(** [team.map((match) => this.getOrCreatePlayerRating(match.player.steamID, match))]. *)
Fixpoint teamRatings `{RatingModule} (playerRatings : gmap string Rating)
    (team : list MatchDetail) : gmap string Rating * list Rating :=
  match team with
  | [] => (playerRatings, [])
  | m :: rest =>
      let '(ratings1, r) :=
        getOrCreatePlayerRating playerRatings (steamID (player m)) m in
      let '(ratings2, rs) := teamRatings ratings1 rest in
      (ratings2, r :: rs)
  end.

(** [newRatings[teamIdx]?.[idx]]. *)
Definition newRatingAt (newRatings : list (list Rating)) (teamIdx idx : nat)
    : option Rating :=
  match newRatings !! teamIdx with
  | Some ratings => ratings !! idx
  | None => None
  end.

(** The write-back of one team, from position [idx] on: a player whose
    updated rating is missing is skipped. *)
Fixpoint cacheTeam (newRatings : list (list Rating)) (teamIdx idx : nat)
    (team : list MatchDetail) (playerRatings : gmap string Rating)
    : gmap string Rating :=
  match team with
  | [] => playerRatings
  | m :: rest =>
      let steamId := steamID (player m) in
      let playerRatings' :=
        match newRatingAt newRatings teamIdx idx with
        | Some newRating => <[steamId := newRating]> playerRatings
        | None => playerRatings
        end in
      cacheTeam newRatings teamIdx (S idx) rest playerRatings'
  end.

(** ** Teams

    The records of a match are objects shared by [matchDetails] and the two
    rosters, and [processMatch] writes into them: [matchDetails] is the
    heap, a record is named by its position in it, a roster is a list of
    positions. *)

Definition deref (matchDetails : list MatchDetail) (team : list nat)
    : list MatchDetail :=
  omap (fun i => matchDetails !! i) team.

Definition hasColor (c : TeamColor) (m : MatchDetail) : bool :=
  match model m, c with
  | Blue, Blue | Red, Red => true
  | _, _ => false
  end.

Definition roster (c : TeamColor) (matchDetails : list MatchDetail) : list nat :=
  List.filter
    (fun i => match matchDetails !! i with
              | Some m => hasColor c m
              | None => false
              end)
    (seq 0 (length matchDetails)).

(** Modelled from the spec: [organizeTeams] of [./team], which is not part of
    this file's sources.  It splits the records into the two rosters by
    their team assignment and fails with [MalformedMatchError] when a roster
    is empty. *)
Definition organizeTeams (matchDetails : list MatchDetail)
    : result (list nat * list nat) :=
  let blueTeam := roster Blue matchDetails in
  let redTeam := roster Red matchDetails in
  match blueTeam, redTeam with
  | _ :: _, _ :: _ => Ok (blueTeam, redTeam)
  | _, _ => Err MalformedMatchError
  end.

(** [matchDetails.forEach(player => playerPerformances.set(...))], from the
    records [rest] on. *)
Fixpoint collectPerformances `{PerformanceModule}
    (matchDetails rest : list MatchDetail)
    (playerPerformances : gmap string PlayerPerformance)
    : result (gmap string PlayerPerformance) :=
  match rest with
  | [] => Ok playerPerformances
  | player0 :: rest' =>
      try performance <- calculateIndividualPerformance player0 matchDetails;
      collectPerformances matchDetails rest'
        (<[steamID (player player0) := performance]> playerPerformances)
  end.

(** ** processMatch *)

(** What [processMatch] has computed when it enters the loop that converts
    rating changes to MMR. *)
Record MatchContext : Type := mkContext {
  previousMatchDetails : gmap string (option MatchDetail);
  winner : string;
  blueRatings : list Rating;
  redRatings : list Rating;
  blueAvgSkill : number;
  redAvgSkill : number;
  skillDifference : number;
  newRatings : list (list Rating)
}.

(** [(winner === 'blue' && teamIdx === 0) || (winner === 'red' && teamIdx === 1)]. *)
Definition isWinnerOf (winner0 : string) (teamIdx : nat) : bool :=
  (String.eqb winner0 "blue" && (teamIdx =? 0)%nat)
  || (String.eqb winner0 "red" && (teamIdx =? 1)%nat).

(** [previousMatchDetail === null]; a missing key gives [undefined], which
    is not [null]. *)
Definition isFirstMatchOf (previousMatchDetail : option (option MatchDetail))
    : bool :=
  match previousMatchDetail with
  | Some None => true
  | _ => false
  end.

(** [previousMatchDetail?.mmrAfterMatch ?? 0]. *)
Definition previousMMROf (previousMatchDetail : option (option MatchDetail)) : Q :=
  match previousMatchDetail with
  | Some (Some p) => default 0%Q (mmrAfterMatch p)
  | _ => 0%Q
  end.

(** What one iteration of the conversion loop computes for a player. *)
Record Outcome : Type := mkOutcome {
  finalMMR : Q;                      (* [mmrAfterMatch] *)
  finalDelta : Q;                    (* [mmrDelta] *)
  finalPerformance : PlayerPerformance   (* the performance object afterwards *)
}.

(** The body of the conversion loop up to its two writes.  [team] holds the
    roster's records as they are when the iteration starts; [performance]
    is [playerPerformances.get(steamId)], which the source asserts to be
    defined (it is: every record of a roster is a record of the match). *)
Definition playerMMR `{PerformanceModule} `{RatingModule} (c : MatchContext)
    (teamIdx : nat) (team : list MatchDetail) (idx : nat) (match0 : MatchDetail)
    (performance0 : option PlayerPerformance) : result Outcome :=
  let steamId := steamID (player match0) in
  let previousMatchDetail := previousMatchDetails c !! steamId in
  let isFirstMatch := isFirstMatchOf previousMatchDetail in
  let previousMMR := previousMMROf previousMatchDetail in
  let isWinner := isWinnerOf (winner c) teamIdx in
  let oldRating :=
    if (teamIdx =? 0)%nat then blueRatings c !! idx else redRatings c !! idx in
  let newRating := newRatingAt (newRatings c) teamIdx idx in
  match performance0 with
  | None => Err TypeError
  | Some performance =>
      if isFirstMatch then
        let mmrAfterMatch0 := calculateInitialMMR newRating performance in
        let mmrDelta0 := mmrAfterMatch0 in
        Ok (mkOutcome mmrAfterMatch0 mmrDelta0 performance)
      else
        try baseMMRChange <- convertRatingChangeToMMR oldRating newRating;
        let performanceAdjustment :=
          calculatePerformanceAdjustment performance isWinner (length team) in
        let balanceFactor :=
          calculateBalanceFactor (skillDifference c) isWinner
            (if (teamIdx =? 0)%nat then blueAvgSkill c else redAvgSkill c)
            (if (teamIdx =? 0)%nat then redAvgSkill c else blueAvgSkill c) in
        try carryAdjustment <-
          calculateCarryAdjustment match0 team performance isWinner;
        let performance' :=
          mkPerformance (score performance)
                        (performanceAdjustment + carryAdjustment)%Q in
        let mmrDelta0 :=
          Math_round
            ((baseMMRChange + performanceAdjustment + carryAdjustment)
             * balanceFactor)%Q in
        let mmrDelta1 := clampMMRDelta mmrDelta0 isWinner in
        let mmrAfterMatch0 := Math_max 0 (previousMMR + mmrDelta1) in
        Ok (mkOutcome mmrAfterMatch0 mmrDelta1 performance')
  end.

(** [match.mmrAfterMatch = ...; match.mmrDelta = ...]. *)
Definition setMMR (after delta : Q) (m : MatchDetail) : MatchDetail :=
  mkMatchDetail (player m) (model m) (stats m) (Some after) (Some delta).

(** The state the conversion loop works on: the records and the
    [playerPerformances] map. *)
Definition LoopState : Type :=
  (list MatchDetail * gmap string PlayerPerformance)%type.

(** One iteration, for the record at position [i] of the heap, which is
    element [idx] of [team]. *)
Definition playerStep `{PerformanceModule} `{RatingModule} (c : MatchContext)
    (teamIdx : nat) (team : list nat) (idx i : nat) (s : LoopState)
    : result LoopState :=
  match s.1 !! i with
  | None => Err TypeError
  | Some m =>
      let steamId := steamID (player m) in
      try o <- playerMMR c teamIdx (deref s.1 team) idx m (s.2 !! steamId);
      Ok (alter (setMMR (finalMMR o) (finalDelta o)) i s.1,
          <[steamId := finalPerformance o]> s.2)
  end.

(** [team.forEach((match, idx) => ...)], from element [idx] on; an exception
    leaves the state as the completed iterations made it. *)
Fixpoint teamLoop `{PerformanceModule} `{RatingModule} (c : MatchContext)
    (teamIdx : nat) (team : list nat) (idx : nat) (rest : list nat)
    (s : LoopState) : LoopState * result unit :=
  match rest with
  | [] => (s, Ok tt)
  | i :: rest' =>
      match playerStep c teamIdx team idx i s with
      | Ok s' => teamLoop c teamIdx team (S idx) rest' s'
      | Err e => (s, Err e)
      end
  end.

(** [[blueTeam, redTeam].forEach((team, teamIdx) => ...)]. *)
Definition mmrLoop `{PerformanceModule} `{RatingModule} (c : MatchContext)
    (blueTeam redTeam : list nat) (s : LoopState) : LoopState * result unit :=
  match teamLoop c 0 blueTeam 0 blueTeam s with
  | (s', Ok _) => teamLoop c 1 redTeam 0 redTeam s'
  | (s', Err e) => (s', Err e)
  end.

(** Everything [processMatch] does before the conversion loop. *)
Record Prepared : Type := mkPrepared {
  blueTeam : list nat;
  redTeam : list nat;
  context : MatchContext;
  playerPerformances : gmap string PlayerPerformance
}.

(** The first part of [processMatch]: the rating store afterwards, and what
    was computed unless an exception ended it. *)
Definition prepare `{PerformanceModule} `{RatingModule} `{TeamModule} `{OpenSkill}
    (playerRatings : gmap string Rating) (matchDetails : list MatchDetail)
    (previous : gmap string (option MatchDetail))
    : gmap string Rating * result Prepared :=
  match organizeTeams matchDetails with
  | Err e => (playerRatings, Err e)
  | Ok (blueTeam0, redTeam0) =>
      let blue := deref matchDetails blueTeam0 in
      let red := deref matchDetails redTeam0 in
      let '(ratings1, blueRatings0) := teamRatings playerRatings blue in
      let '(ratings2, redRatings0) := teamRatings ratings1 red in
      let blueAvgSkill0 := calculateTeamSkill blueRatings0 in
      let redAvgSkill0 := calculateTeamSkill redRatings0 in
      let skillDifference0 := nabs (nsub blueAvgSkill0 redAvgSkill0) in
      let winner0 := determineWinner blue red in
      match collectPerformances matchDetails matchDetails ∅ with
      | Err e => (ratings2, Err e)
      | Ok performances =>
          let newRatings0 :=
            if String.eqb winner0 "blue"
            then rate [blueRatings0; redRatings0] [1; 2]%nat
            else rate [blueRatings0; redRatings0] [2; 1]%nat in
          let ratings3 :=
            cacheTeam newRatings0 1 0 red
              (cacheTeam newRatings0 0 0 blue ratings2) in
          (ratings3,
           Ok (mkPrepared blueTeam0 redTeam0
                 (mkContext previous winner0 blueRatings0 redRatings0
                    blueAvgSkill0 redAvgSkill0 skillDifference0 newRatings0)
                 performances))
      end
  end.

(** [processMatch]: the rating store and the records afterwards, and whether
    the call returned ([Ok], the records being the array it returns) or
    threw. *)
Definition processMatch `{PerformanceModule} `{RatingModule} `{TeamModule} `{OpenSkill}
    (playerRatings : gmap string Rating) (matchDetails : list MatchDetail)
    (previous : gmap string (option MatchDetail))
    : gmap string Rating * list MatchDetail * result unit :=
  match prepare playerRatings matchDetails previous with
  | (ratings, Err e) => (ratings, matchDetails, Err e)
  | (ratings, Ok p) =>
      let '(s, r) :=
        mmrLoop (context p) (blueTeam p) (redTeam p)
          (matchDetails, playerPerformances p) in
      (ratings, s.1, r)
  end.

(** ** Reference notions and sample data

    The mathematical notions the properties are stated with, and the
    concrete collaborators and matches the examples run on. *)

(** The sum and the average of the scores of a list of performances. *)
Definition sumScores (perfs : list PlayerPerformance) : Q :=
  fold_right (fun p acc => (score p + acc)%Q) 0%Q perfs.

Definition averageScore (perfs : list PlayerPerformance) : Q :=
  (sumScores perfs / inject_Z (Z.of_nat (length perfs)))%Q.

(** The rating [ensurePlayerRatings] seeds for [id]: that of the last
    player of the list with this [steamID], if there is one. *)
Fixpoint lastSeed (id : string) (players : list Player) : option Rating :=
  match players with
  | [] => None
  | p :: rest =>
      match lastSeed id rest with
      | Some r => Some r
      | None =>
          if String.eqb (steamID p) id
          then Some (rating (skillMu p) (skillSigma p))
          else None
      end
  end.

(** How many records of a list belong to the player [id]. *)
Definition occurrences (id : string) (l : list MatchDetail) : nat :=
  length (List.filter (fun t => String.eqb (steamID (player t)) id) l).

(** An evaluator that takes the first statistic of a record for its score. *)
Definition firstStat (m : MatchDetail) : Q :=
  match stats m with
  | x :: _ => x
  | [] => 0%Q
  end.

Definition statsPerformance : PerformanceModule := {|
  calculateIndividualPerformance := fun m _ => Ok (mkPerformance (firstStat m) 0);
  calculatePerformanceAdjustment := fun p _ _ => ((score p - 1) * 10)%Q
|}.

(** An evaluator that wants at least four records to compare with. *)
Definition strictPerformance : PerformanceModule := {|
  calculateIndividualPerformance := fun m population =>
    if (length population <? 4)%nat then Err InsufficientDataError
    else Ok (mkPerformance (firstStat m) 0);
  calculatePerformanceAdjustment := fun p _ _ => ((score p - 1) * 10)%Q
|}.

(** An evaluator whose score is the number of records the player has in the
    population. *)
Definition countingPerformance : PerformanceModule := {|
  calculateIndividualPerformance := fun m population =>
    Ok (mkPerformance
          (inject_Z (Z.of_nat (occurrences (steamID (player m)) population))) 0);
  calculatePerformanceAdjustment := fun _ _ _ => 0%Q
|}.

(** An evaluator that signals [InsufficientDataError] exactly when it is
    given no comparison population. *)
Definition emptyAwarePerformance : PerformanceModule := {|
  calculateIndividualPerformance := fun m population =>
    match population with
    | [] => Err InsufficientDataError
    | _ :: _ => Ok (mkPerformance (firstStat m) 0)
    end;
  calculatePerformanceAdjustment := fun p _ _ => ((score p - 1) * 10)%Q
|}.

(** An evaluator that never has enough data. *)
Definition failingPerformance : PerformanceModule := {|
  calculateIndividualPerformance := fun _ _ => Err InsufficientDataError;
  calculatePerformanceAdjustment := fun _ _ _ => 0%Q
|}.

Definition sampleRating : RatingModule := {|
  calculateInitialMMR := fun r p =>
    match r with
    | Some r => (mu r * 40)%Q
    | None => 1000%Q
    end;
  calculateSkillProxy := firstStat;
  calculateInitialRating := fun proxy => mkRating (20 + proxy * 5) 8
|}.


Definition blueWins : TeamModule := {| determineWinner := fun _ _ => "blue" |}.

(** An oracle that moves [mu] by one towards the rank and narrows [sigma]. *)
Definition shift (up : bool) (r : Rating) : Rating :=
  mkRating (if up then mu r + 1 else mu r - 1)%Q (sigma r - 0.1)%Q.

Definition sampleOpenSkill : OpenSkill := {|
  rate := fun teams rank =>
    match teams, rank with
    | [a; b], [ra; rb] => [map (shift (ra <? rb)%nat) a; map (shift (rb <? ra)%nat) b]
    | _, _ => teams
    end
|}.

(** An oracle whose answer for the first team lacks its last rating. *)
Definition shortOpenSkill : OpenSkill := {|
  rate := fun teams rank =>
    match teams, rank with
    | [a; b], [ra; rb] =>
        [removelast (map (shift (ra <? rb)%nat) a); map (shift (rb <? ra)%nat) b]
    | _, _ => teams
    end
|}.

Definition record (id : string) (c : TeamColor) (s : Q) : MatchDetail :=
  mkMatchDetail (mkPlayer id 25 8) c [s] None None.

(** A match of two against two. *)
Definition sampleMatch : list MatchDetail :=
  [record "a" Blue 0.9; record "b" Blue 0.5; record "c" Red 1.5; record "d" Red 0.5].

(** ["a"] plays a first match, ["c"] had 3 points, ["b"] and ["d"] have no
    entry. *)
Definition samplePrevious : gmap string (option MatchDetail) :=
  <["a" := None]>
    (<["c" := Some (mkMatchDetail (mkPlayer "c" 25 8) Red [] (Some 3%Q) None)]> ∅).

(** Everybody has played before. *)
Definition establishedPrevious : gmap string (option MatchDetail) := ∅.

(** A store that already rates ["a"]. *)
Definition seededStore : gmap string Rating := {[ "a" := mkRating 30 2 ]}.

(** A team of five: one score of 2 among four scores of 1. *)
Definition teamOfFive : list MatchDetail :=
  [record "p" Blue 2; record "q" Blue 1; record "r" Blue 1; record "s" Blue 1;
   record "t" Blue 1].

(** The same record of the match, whatever its two output fields hold. *)
Definition sameRecord (m m' : MatchDetail) : Prop :=
  player m = player m' /\ model m = model m' /\ stats m = stats m'.

(** [s'] is a state the conversion loop can be in after [s]: the records are
    the same but for their output fields, and the performance objects of the
    players in their first match are as they were. *)
Definition evolves (c : MatchContext) (s s' : LoopState) : Prop :=
  length s'.1 = length s.1
  /\ (forall j m, s.1 !! j = Some m ->
        exists m', s'.1 !! j = Some m' /\ sameRecord m m')
  /\ (forall id, isFirstMatchOf (previousMatchDetails c !! id) = true ->
        s'.2 !! id = s.2 !! id).

(** The performance objects of [s'] have the scores they have in [s]. *)
Definition keepsScores (s s' : LoopState) : Prop :=
  forall id, score <$> (s'.2 !! id) = score <$> (s.2 !! id).

(** The index [processMatch] gives the team of a record: 0 for blue, 1 for
    red. *)
Definition teamIndex (m : MatchDetail) : nat :=
  match model m with
  | Blue => 0
  | Red => 1
  end.

(** The roster with a team index. *)
Definition teamAt (p : Prepared) (teamIdx : nat) : list nat :=
  if (teamIdx =? 0)%nat then blueTeam p else redTeam p.

(** The sample match processed on an empty store, blue winning. *)
Definition sampleRun : gmap string Rating * list MatchDetail * result unit :=
  @processMatch statsPerformance sampleRating blueWins sampleOpenSkill
    ∅ sampleMatch samplePrevious.

Definition sampleStore : gmap string Rating := sampleRun.1.1.
Definition sampleOutput : list MatchDetail := sampleRun.1.2.


(** The same match, everybody established, with the oracle that forgets the
    rating of ["b"]. *)
Definition shortRun : gmap string Rating * list MatchDetail * result unit :=
  @processMatch statsPerformance sampleRating blueWins shortOpenSkill
    ∅ sampleMatch establishedPrevious.

(** The same match, everybody established, with the evaluator that wants
    four records. *)
Definition strictRun : gmap string Rating * list MatchDetail * result unit :=
  @processMatch strictPerformance sampleRating blueWins sampleOpenSkill
    ∅ sampleMatch establishedPrevious.

(** An oracle that answers with two sequences as long as the two it got. *)
Definition wellShaped (OS : OpenSkill) : Prop :=
  forall a b rank,
    exists a' b', rate [a; b] rank = [a'; b']
                  /\ length a' = length a /\ length b' = length b.

(** An evaluator that scores every record on every non-empty population. *)
Definition evaluatesAll (PM : PerformanceModule) : Prop :=
  forall m population, population <> [] ->
    exists perf, calculateIndividualPerformance m population = Ok perf.

(** What the conversion loop relies on from one iteration to the next: the
    records are those of the match, and each has its performance object. *)
Definition loopReady (md : list MatchDetail) (s : LoopState) : Prop :=
  length s.1 = length md
  /\ forall j m, s.1 !! j = Some m -> is_Some (s.2 !! steamID (player m)).

(** What the conversion loop can rely on in every state it reaches: the
    records are those of the match [md], each still belongs to the player
    it belonged to, and each has its performance object. *)
Definition loopSafe (md : list MatchDetail) (s : LoopState) : Prop :=
  length s.1 = length md
  /\ (forall j m, s.1 !! j = Some m ->
        exists m0, md !! j = Some m0 /\ player m0 = player m)
  /\ (forall j m, s.1 !! j = Some m -> is_Some (s.2 !! steamID (player m))).

(** Everybody plays a first match. *)
Definition firstMatchPrevious : gmap string (option MatchDetail) :=
  <["a" := None]> (<["b" := None]> (<["c" := None]> (<["d" := None]> ∅))).

(** The sample match with everybody in a first match and the evaluator
    that wants four records. *)
Definition firstRun : gmap string Rating * list MatchDetail * result unit :=
  @processMatch strictPerformance sampleRating blueWins sampleOpenSkill
    ∅ sampleMatch firstMatchPrevious.

(** A team module that declares neither roster the winner. *)
Definition nobodyWins : TeamModule := {| determineWinner := fun _ _ => "draw" |}.

(** The sample match, everybody established, with no declared winner. *)
Definition drawRun : gmap string Rating * list MatchDetail * result unit :=
  @processMatch statsPerformance sampleRating nobodyWins sampleOpenSkill
    ∅ sampleMatch establishedPrevious.

(** * Properties *)

(** ** Arithmetic of the embedded numbers *)

Lemma Qlt_bool_true (x y : Q) : Qlt_bool x y = true <-> (x < y)%Q.
Proof.
  unfold Qlt_bool. rewrite negb_true_iff.
  destruct (Qle_bool y x) eqn:E.
  - apply Qle_bool_iff in E. split; [discriminate | intros; lra].
  - split; [intros _ | reflexivity].
    destruct (Qlt_le_dec x y) as [L | L]; [exact L |].
    apply Qle_bool_iff in L. congruence.
Qed.

Lemma Qlt_bool_false (x y : Q) : Qlt_bool x y = false <-> (y <= x)%Q.
Proof.
  unfold Qlt_bool. rewrite negb_false_iff. apply Qle_bool_iff.
Qed.

(** Case analysis on every [Math.max] and [Math.min] in sight. *)
Ltac minmax :=
  unfold Math_max, Math_min in *;
  repeat match goal with
    | |- context [Qmax ?a ?b] =>
        let m := fresh "m" in
        pose proof (Q.max_spec a b); set (m := Qmax a b) in *; clearbody m
    | |- context [Qmin ?a ?b] =>
        let m := fresh "m" in
        pose proof (Q.min_spec a b); set (m := Qmin a b) in *; clearbody m
    | _ : context [Qmax ?a ?b] |- _ =>
        let m := fresh "m" in
        pose proof (Q.max_spec a b); set (m := Qmax a b) in *; clearbody m
    | _ : context [Qmin ?a ?b] |- _ =>
        let m := fresh "m" in
        pose proof (Q.min_spec a b); set (m := Qmin a b) in *; clearbody m
    end.

(** [lra] after the divisions by the constants 10 and 15 have been turned
    into multiplications. *)
Ltac lraq :=
  unfold Qdiv in *;
  change (/ 10)%Q with (1 # 10)%Q in *;
  change (/ 15)%Q with (1 # 15)%Q in *;
  lra.

(** Case analysis on a comparison the code makes. *)
Ltac compare_dec x y :=
  let E := fresh "E" in
  destruct (Qlt_bool x y) eqn:E;
  [apply Qlt_bool_true in E | apply Qlt_bool_false in E].

(** [Math.round] returns the integer nearest to its argument. *)
Lemma Math_round_nearest (x : Q) :
  exists z : Z, Math_round x = inject_Z z
                /\ (x - (1 # 2) < inject_Z z <= x + (1 # 2))%Q.
Proof.
  exists (Qfloor (x + (1 # 2))). split; [reflexivity |].
  pose proof (Qfloor_le (x + (1 # 2))) as Hle.
  pose proof (Qlt_floor (x + (1 # 2))) as Hlt.
  rewrite inject_Z_plus in Hlt. change (inject_Z 1) with 1%Q in Hlt.
  split; lra.
Qed.

Lemma Math_round_compat (x y : Q) : (x == y)%Q -> Math_round x = Math_round y.
Proof.
  intros E. unfold Math_round. f_equal. apply Qfloor_comp. now rewrite E.
Qed.

Lemma Math_round_int (z : Z) : Math_round (inject_Z z) = inject_Z z.
Proof.
  unfold Math_round. f_equal.
  pose proof (Qfloor_le (inject_Z z + (1 # 2))) as Hle.
  pose proof (Qlt_floor (inject_Z z + (1 # 2))) as Hlt.
  set (k := Qfloor (inject_Z z + (1 # 2))) in *.
  assert (inject_Z k <= inject_Z z + (1 # 2))%Q as H1 by exact Hle.
  assert (inject_Z z + (1 # 2) < inject_Z (k + 1))%Q as H2 by exact Hlt.
  assert (inject_Z z < inject_Z (k + 1))%Q as H3 by lra.
  rewrite <- Zlt_Qlt in H3.
  assert (inject_Z k < inject_Z (z + 1))%Q as H4.
  { rewrite inject_Z_plus. change (inject_Z 1) with 1%Q. lra. }
  rewrite <- Zlt_Qlt in H4. lia.
Qed.

(** ** The balance factor *)

Lemma calculateBalanceFactor_bounds sd w p o :
  (0.5 <= calculateBalanceFactor sd w p o <= 1.8)%Q.
Proof.
  unfold calculateBalanceFactor. minmax. lra.
Qed.

(** ** The clamp *)

Lemma clampMMRDelta_winner (d : Q) : (2 <= clampMMRDelta d true <= 40)%Q.
Proof. unfold clampMMRDelta. minmax. lra. Qed.

Lemma clampMMRDelta_loser (d : Q) : (-40 <= clampMMRDelta d false <= -2)%Q.
Proof. unfold clampMMRDelta. minmax. lra. Qed.

(** ** Sums *)

Lemma fold_left_scores (perfs : list PlayerPerformance) (acc : Q) :
  (fold_left (fun sum perf => sum + score perf) perfs acc == acc + sumScores perfs)%Q.
Proof.
  revert acc. induction perfs as [| p perfs IH]; intros acc; simpl.
  - lra.
  - rewrite IH. lra.
Qed.

(** ** C5: the balance factor *)

(** C5.  The balance factor lies in [0.5, 1.8]; it is exactly 1 when the
    skill difference is at most 3 (and when it is undefined); above 3 it is
    [1.3 + min(0.4, d/10)] for an upset (the player won with the lower team
    average, or lost with the higher one) and [0.8 - min(0.2, d/15)]
    otherwise; the final clamp never changes these values. *)
Theorem C5_balance_factor (skillDifference0 : number) (isWinner : bool)
    (playerTeamSkill opponentTeamSkill : number) :
  let factor :=
    calculateBalanceFactor skillDifference0 isWinner playerTeamSkill opponentTeamSkill in
  (0.5 <= factor <= 1.8)%Q
  /\ (forall d, skillDifference0 = Num d -> (d <= 3)%Q -> factor = 1%Q)
  /\ (skillDifference0 = NaN -> factor = 1%Q)
  /\ (forall d p o,
        skillDifference0 = Num d -> playerTeamSkill = Num p ->
        opponentTeamSkill = Num o -> (3 < d)%Q ->
        let upset := (isWinner = true /\ (p < o)%Q) \/ (isWinner = false /\ (o < p)%Q) in
        (upset -> (factor == 1.3 + Qmin 0.4 (d / 10))%Q)
        /\ (~ upset -> (factor == 0.8 - Qmin 0.2 (d / 15))%Q)).
Proof.
  cbv zeta. split; [apply calculateBalanceFactor_bounds |].
  split; [| split].
  - intros d -> Hd. unfold calculateBalanceFactor.
    compare_dec 3%Q d; [lra | reflexivity].
  - intros ->. reflexivity.
  - intros d p o -> -> -> Hd. unfold calculateBalanceFactor, nlt.
    compare_dec 3%Q d; [| lra].
    split.
    + intros [[-> Hlt] | [-> Hlt]]; simpl.
      * rewrite (proj2 (Qlt_bool_true _ _) Hlt). simpl. minmax. lraq.
      * rewrite (proj2 (Qlt_bool_true _ _) Hlt). simpl. minmax. lraq.
    + intros Hno. destruct isWinner; simpl.
      * compare_dec p o; [exfalso; apply Hno; left; auto |].
        simpl. minmax. lraq.
      * compare_dec o p; [exfalso; apply Hno; right; auto |].
        simpl. minmax. lraq.
Qed.

(** The favoured team wins by a skill difference of 5: the factor is
    [0.8 - 5/15]. *)
Lemma C5_balance_factor_witness :
  (calculateBalanceFactor (Num 5) true (Num 25) (Num 20) == 0.8 - Qmin 0.2 (5 / 15))%Q.
Proof.
  apply (C5_balance_factor (Num 5) true (Num 25) (Num 20)) with (p := 25%Q) (o := 20%Q);
    try reflexivity.
  intros [[_ H] | [H _]]; discriminate.
Defined.

(** The average the code passes on is the average of [mu]. *)
Lemma calculateTeamSkill_empty : calculateTeamSkill [] = NaN.
Proof. reflexivity. Qed.

Lemma calculateTeamSkill_average (ratings : list Rating) :
  ratings <> [] ->
  exists q, calculateTeamSkill ratings = Num q
            /\ (q == fold_right (fun r acc => mu r + acc) 0 ratings
                     / inject_Z (Z.of_nat (length ratings)))%Q.
Proof.
  intros Hne. unfold calculateTeamSkill, div_length.
  destruct ratings as [| r ratings]; [congruence |].
  eexists. split; [reflexivity |].
  assert (forall l acc,
    (fold_left (fun sum r => sum + mu r) l acc
     == acc + fold_right (fun r acc => mu r + acc) 0 l)%Q) as Hsum.
  { induction l as [| x l IH]; intros acc; simpl; [lra | rewrite IH; lra]. }
  rewrite Hsum. now rewrite Qplus_0_l.
Qed.

(** ** C7: the base change *)

(** C7.  The base MMR change is [(new.mu - old.mu) * 5 + max(0, old.sigma -
    new.sigma) * 1.5]: a reduction of sigma adds one and a half times the
    reduction, an increase of sigma adds nothing, and the sigma term is
    never negative. *)
Theorem C7_base_change (oldRating newRating : Rating) :
  exists base sigmaTerm,
    convertRatingChangeToMMR (Some oldRating) (Some newRating) = Ok base
    /\ (base == (mu newRating - mu oldRating) * 5 + sigmaTerm * 1.5)%Q
    /\ (sigmaTerm == Qmax 0 (sigma oldRating - sigma newRating))%Q
    /\ (0 <= sigmaTerm)%Q
    /\ ((sigma newRating <= sigma oldRating)%Q ->
        (sigmaTerm == sigma oldRating - sigma newRating)%Q)
    /\ ((sigma oldRating <= sigma newRating)%Q ->
        (base == (mu newRating - mu oldRating) * 5)%Q).
Proof.
  exists ((mu newRating - mu oldRating) * 5
          + Math_max 0 (sigma oldRating - sigma newRating) * 1.5)%Q,
         (Math_max 0 (sigma oldRating - sigma newRating)).
  split; [reflexivity |].
  split; [reflexivity |].
  split; [reflexivity |].
  minmax. repeat split; intros; lra.
Qed.

(** A rating that moved from (25, 8) to (26, 8.5): five points, nothing for
    the wider sigma. *)
Lemma C7_base_change_example :
  exists base,
    convertRatingChangeToMMR (Some (mkRating 25 8)) (Some (mkRating 26 8.5)) = Ok base
    /\ (base == 5)%Q.
Proof. eexists. split; [reflexivity | vm_compute; reflexivity]. Qed.

(** ** C1: seeding the rating store *)

Lemma ensurePlayerRatings_lookup (players : list Player)
    (store : gmap string Rating) (id : string) :
  ensurePlayerRatings players store !! id =
  match lastSeed id players with
  | Some r => Some r
  | None => store !! id
  end.
Proof.
  revert store. induction players as [| p players IH]; intros store.
  - reflexivity.
  - change (ensurePlayerRatings (p :: players) store)
      with (ensurePlayerRatings players
              (<[steamID p := rating (skillMu p) (skillSigma p)]> store)).
    rewrite IH. simpl. destruct (lastSeed id players); [reflexivity |].
    destruct (String.eqb (steamID p) id) eqn:E.
    + apply String.eqb_eq in E. subst id. apply lookup_insert_eq.
    + apply String.eqb_neq in E. now apply lookup_insert_ne.
Qed.

Lemma lastSeed_None (id : string) (players : list Player) :
  lastSeed id players = None <-> id ∉ map steamID players.
Proof.
  induction players as [| p players IH]; simpl.
  - split; [intros _ | reflexivity]. apply not_elem_of_nil.
  - rewrite not_elem_of_cons, <- IH.
    destruct (lastSeed id players); [split; [discriminate | intros [_ ?]; done] |].
    destruct (String.eqb (steamID p) id) eqn:E.
    + apply String.eqb_eq in E. split; [discriminate | intros [? _]; congruence].
    + apply String.eqb_neq in E. split; [intros _; split; congruence | reflexivity].
Qed.

Lemma lastSeed_Some (id : string) (players : list Player) (r : Rating) :
  lastSeed id players = Some r ->
  exists p, p ∈ players /\ steamID p = id /\ r = rating (skillMu p) (skillSigma p).
Proof.
  induction players as [| p players IH]; simpl; [discriminate |].
  destruct (lastSeed id players) as [r' |].
  - intros [= <-]. destruct IH as (q & Hq & ? & ?); [reflexivity |].
    exists q. split; [now apply list_elem_of_further | done].
  - destruct (String.eqb (steamID p) id) eqn:E; [| discriminate].
    apply String.eqb_eq in E. intros [= <-].
    exists p. split; [apply list_elem_of_here | done].
Qed.

Lemma lastSeed_app (id : string) (l1 l2 : list Player) :
  lastSeed id (l1 ++ l2)
  = match lastSeed id l2 with
    | Some r => Some r
    | None => lastSeed id l1
    end.
Proof.
  induction l1 as [| p l1 IH]; simpl.
  - now destruct (lastSeed id l2).
  - rewrite IH. now destruct (lastSeed id l2).
Qed.

(** The last record of a player in the list is the one that counts. *)
Lemma lastSeed_last (before after : list Player) (p : Player) :
  steamID p ∉ map steamID after ->
  lastSeed (steamID p) (before ++ p :: after)
  = Some (rating (skillMu p) (skillSigma p)).
Proof.
  intros Hlast. apply lastSeed_None in Hlast.
  rewrite lastSeed_app. simpl. now rewrite Hlast, String.eqb_refl.
Qed.

(** C1, as the code has it.  [ensurePlayerRatings] writes the supplied
    rating of every listed player into the store, whether the player was
    present or not, and the last record of a player in the list wins: for
    the record [p] that no later record of the same player follows, the
    store ends with [rating(p.skillMu, p.skillSigma)], whatever it held
    before.  The entries of players that are not listed are unchanged, and
    calling it a second time with the same list changes nothing. *)
Theorem C1_ensure_overwrites (players : list Player) (store : gmap string Rating) :
  (forall id, id ∉ map steamID players ->
     ensurePlayerRatings players store !! id = store !! id)
  /\ (forall before p after,
        players = before ++ p :: after ->
        steamID p ∉ map steamID after ->
        ensurePlayerRatings players store !! steamID p
        = Some (rating (skillMu p) (skillSigma p)))
  /\ (forall id,
        ensurePlayerRatings players store !! id
        = match lastSeed id players with
          | Some r => Some r
          | None => store !! id
          end)
  /\ ensurePlayerRatings players (ensurePlayerRatings players store)
     = ensurePlayerRatings players store.
Proof.
  split; [| split; [| split]].
  - intros id Hid. rewrite ensurePlayerRatings_lookup.
    apply lastSeed_None in Hid. now rewrite Hid.
  - intros before p after -> Hlast.
    now rewrite ensurePlayerRatings_lookup, lastSeed_last.
  - apply ensurePlayerRatings_lookup.
  - apply map_eq. intros id. rewrite !ensurePlayerRatings_lookup.
    now destruct (lastSeed id players).
Qed.

(** The store rates ["a"] at (30, 2) and ["a"] is listed twice, with
    (25, 8) and then with (26, 7): the store ends with (26, 7). *)
Lemma C1_ensure_overwrites_witness :
  ensurePlayerRatings [mkPlayer "a" 25 8; mkPlayer "a" 26 7] seededStore !! "a"
  = Some (mkRating 26 7).
Proof.
  apply (C1_ensure_overwrites [mkPlayer "a" 25 8; mkPlayer "a" 26 7] seededStore)
    with (before := [mkPlayer "a" 25 8]) (p := mkPlayer "a" 26 7) (after := []).
  - reflexivity.
  - apply not_elem_of_nil.
Defined.

(** The store rates ["a"] at (30, 2); seeding ["a"] with (25, 8) replaces
    that rating. *)
Lemma C1_present_player_overwritten :
  seededStore !! "a" = Some (mkRating 30 2)
  /\ ensurePlayerRatings [mkPlayer "a" 25 8] seededStore !! "a" = Some (mkRating 25 8)
  /\ ensurePlayerRatings [mkPlayer "a" 25 8] seededStore !! "a" <> seededStore !! "a".
Proof.
  split; [reflexivity |]. split; [reflexivity |]. discriminate.
Qed.

(** ** Evaluating a list of records *)

Lemma mapM_Forall2 {A B : Type} (f : A -> result B) (xs : list A) (ys : list B) :
  mapM f xs = Ok ys -> Forall2 (fun x y => f x = Ok y) xs ys.
Proof.
  revert ys. induction xs as [| x xs IH]; intros ys; simpl.
  - intros [= <-]. constructor.
  - destruct (f x) as [y |] eqn:Ex; simpl; [| discriminate].
    destruct (mapM f xs) as [ys' |]; simpl; [| discriminate].
    intros [= <-]. constructor; [exact Ex | now apply IH].
Qed.

(** ** C6: the carry adjustment *)

Lemma Qabs_cases (x : Q) :
  ((0 <= x)%Q /\ (Qabs x == x)%Q) \/ ((x <= 0)%Q /\ (Qabs x == - x)%Q).
Proof.
  destruct (Qlt_le_dec x 0) as [L | L].
  - right. split; [lra | apply Qabs_neg; lra].
  - left. split; [exact L | now apply Qabs_pos].
Qed.

(** Case analysis on every [Math.abs] in sight. *)
Ltac qabs :=
  unfold Math_abs in *;
  repeat match goal with
    | |- context [Qabs ?a] =>
        let m := fresh "m" in
        pose proof (Qabs_cases a); set (m := Qabs a) in *; clearbody m
    | _ : context [Qabs ?a] |- _ =>
        let m := fresh "m" in
        pose proof (Qabs_cases a); set (m := Qabs a) in *; clearbody m
    end.

Lemma Math_round_zero : Math_round 0 = 0%Q.
Proof. reflexivity. Qed.

Lemma carryFromScores_nil (perf : PlayerPerformance) (w : bool) :
  carryFromScores perf [] w = 0%Q.
Proof. reflexivity. Qed.

(** With at least one teammate the difference is a number: the subject's
    score less the average of the teammates' scores. *)
Lemma carryFromScores_cons (perf : PlayerPerformance)
    (perfs : list PlayerPerformance) (w : bool) :
  perfs <> [] ->
  exists d, (d == score perf - averageScore perfs)%Q
    /\ carryFromScores perf perfs w
       = if Qlt_bool (Math_abs d) 0.4 then 0%Q else Math_round (carryQuadrant d w).
Proof.
  intros Hne. destruct perfs as [| p perfs]; [congruence |].
  unfold carryFromScores, div_length, nsub.
  eexists. split; [| reflexivity].
  unfold averageScore. rewrite fold_left_scores. now rewrite Qplus_0_l.
Qed.

Lemma carryFromScores_table (perf : PlayerPerformance)
    (perfs : list PlayerPerformance) (w : bool) :
  perfs <> [] ->
  let diff := (score perf - averageScore perfs)%Q in
  let r := carryFromScores perf perfs w in
  ((Qabs diff <= 0.4)%Q -> r = 0%Q)
  /\ ((0.4 < diff)%Q -> w = false -> r = Math_round (Qmin 18 (diff * 12)))
  /\ ((0.4 < diff)%Q -> w = true -> r = Math_round (Qmin 8 (diff * 4)))
  /\ ((diff < -0.4)%Q -> w = true -> r = Math_round (Qmax (-12) (diff * 8)))
  /\ ((diff < -0.4)%Q -> w = false -> r = Math_round (Qmax (-10) (diff * 6))).
Proof.
  intros Hne diff r.
  destruct (carryFromScores_cons perf perfs w Hne) as (d & Hd & Hr).
  fold diff in Hd. subst r. rewrite Hr. clear Hr.
  repeat split.
  - intros Hdead. compare_dec (Math_abs d) 0.4%Q; [reflexivity |].
    unfold carryQuadrant.
    compare_dec 0.4%Q d; [exfalso; qabs; lra |].
    compare_dec d (-0.4)%Q; [exfalso; qabs; lra |].
    reflexivity.
  - intros Hout ->. compare_dec (Math_abs d) 0.4%Q; [exfalso; qabs; lra |].
    unfold carryQuadrant.
    compare_dec 0.4%Q d; [| exfalso; lra].
    simpl. apply Math_round_compat. minmax. lra.
  - intros Hout ->. compare_dec (Math_abs d) 0.4%Q; [exfalso; qabs; lra |].
    unfold carryQuadrant.
    compare_dec 0.4%Q d; [| exfalso; lra].
    simpl. apply Math_round_compat. minmax. lra.
  - intros Hunder ->. compare_dec (Math_abs d) 0.4%Q; [exfalso; qabs; lra |].
    unfold carryQuadrant.
    compare_dec 0.4%Q d; [exfalso; lra |].
    compare_dec d (-0.4)%Q; [| exfalso; lra].
    apply Math_round_compat. minmax. lra.
  - intros Hunder ->. compare_dec (Math_abs d) 0.4%Q; [exfalso; qabs; lra |].
    unfold carryQuadrant.
    compare_dec 0.4%Q d; [exfalso; lra |].
    compare_dec d (-0.4)%Q; [| exfalso; lra].
    apply Math_round_compat. minmax. lra.
Qed.

(** C6, as the code has it.  The carry adjustment is 0 for a team of fewer
    than 2 records.  For a larger team whose teammates were all evaluated:
    it is 0 when no record of the team has another [steamID] than the
    subject's (there is no average to compare with); otherwise, with [diff]
    the subject's score less the teammates' average score, it is 0 when
    [|diff| <= 0.4] (0.4 itself included), and the rounded quadrant value
    when [diff > 0.4] or [diff < -0.4]. *)
Theorem C6_carry_adjustment `{PerformanceModule} (playerMatch : MatchDetail)
    (team : list MatchDetail) (playerPerformance : PlayerPerformance)
    (isWinner : bool) :
  let teammates := teammatesOf playerMatch team in
  let carry := calculateCarryAdjustment playerMatch team playerPerformance isWinner in
  ((length team < 2)%nat -> carry = Ok 0%Q)
  /\ (forall perfs,
        (2 <= length team)%nat ->
        mapM (fun t => calculateIndividualPerformance t (team ++ teammates)) teammates
          = Ok perfs ->
        exists r, carry = Ok r
          /\ (teammates = [] -> r = 0%Q)
          /\ (teammates <> [] ->
              let diff := (score playerPerformance - averageScore perfs)%Q in
              ((Qabs diff <= 0.4)%Q -> r = 0%Q)
              /\ ((0.4 < diff)%Q -> isWinner = false ->
                  r = Math_round (Qmin 18 (diff * 12)))
              /\ ((0.4 < diff)%Q -> isWinner = true ->
                  r = Math_round (Qmin 8 (diff * 4)))
              /\ ((diff < -0.4)%Q -> isWinner = true ->
                  r = Math_round (Qmax (-12) (diff * 8)))
              /\ ((diff < -0.4)%Q -> isWinner = false ->
                  r = Math_round (Qmax (-10) (diff * 6))))).
Proof.
  intros teammates carry. subst carry. unfold calculateCarryAdjustment.
  fold teammates. split.
  - intros Hlen. apply Nat.ltb_lt in Hlen. now rewrite Hlen.
  - intros perfs Hlen Hmap.
    assert ((length team <? 2)%nat = false) as -> by (apply Nat.ltb_ge; lia).
    rewrite Hmap. simpl. eexists. split; [reflexivity |].
    apply mapM_Forall2 in Hmap. split.
    + intros Hnil. rewrite Hnil in Hmap. inversion Hmap. reflexivity.
    + intros Hne. apply carryFromScores_table.
      intros ->. inversion Hmap. congruence.
Qed.

(** One score of 2 among four teammates' scores of 1, on the losing side:
    the adjustment is [min(18, 1 * 12) = 12]. *)
Lemma C6_carry_adjustment_witness :
  @calculateCarryAdjustment statsPerformance (record "p" Blue 2) teamOfFive
    (mkPerformance 2 0) false = Ok 12%Q.
Proof.
  destruct (@C6_carry_adjustment statsPerformance (record "p" Blue 2) teamOfFive
              (mkPerformance 2 0) false) as [_ Hbig].
  destruct (Hbig (map (fun m => mkPerformance (firstStat m) 0)
                      (teammatesOf (record "p" Blue 2) teamOfFive)))
    as (r & Hr & _ & Htable).
  - simpl. lia.
  - reflexivity.
  - rewrite Hr. f_equal.
    destruct Htable as (_ & Hlost & _); [discriminate |].
    rewrite Hlost; [reflexivity | reflexivity | reflexivity].
Defined.

(** The subject scores 0.9 and the one teammate 0.5: the difference is 0.4,
    not below 0.4, and the adjustment is 0, which is none of the four
    quadrant values (5, 2, 3 and 2 here). *)
Lemma C6_boundary_is_no_quadrant :
  let team := [record "a" Blue 0.9; record "b" Blue 0.5] in
  let subject := mkPerformance 0.9 0 in
  let diff := (score subject - averageScore [mkPerformance 0.5 0])%Q in
  (2 <= length team)%nat
  /\ ~ (Qabs diff < 0.4)%Q
  /\ @calculateCarryAdjustment statsPerformance (record "a" Blue 0.9) team subject false
     = Ok 0%Q
  /\ @calculateCarryAdjustment statsPerformance (record "a" Blue 0.9) team subject true
     = Ok 0%Q
  /\ Math_round (Qmin 18 (diff * 12)) = 5%Q
  /\ Math_round (Qmin 8 (diff * 4)) = 2%Q
  /\ Math_round (Qmax (-12) (diff * 8)) = 3%Q
  /\ Math_round (Qmax (-10) (diff * 6)) = 2%Q.
Proof.
  cbv zeta. split; [simpl; lia |].
  split; [vm_compute; discriminate |].
  repeat split; reflexivity.
Qed.

(** ** C10: the comparison population of the carry adjustment *)

Lemma teammatesOf_elem (playerMatch t : MatchDetail) (team : list MatchDetail) :
  t ∈ teammatesOf playerMatch team
  <-> t ∈ team /\ steamID (player t) <> steamID (player playerMatch).
Proof.
  unfold teammatesOf. rewrite !list_elem_of_In, filter_In, negb_true_iff.
  now rewrite String.eqb_neq.
Qed.

Lemma occurrences_app (id : string) (l1 l2 : list MatchDetail) :
  occurrences id (l1 ++ l2) = (occurrences id l1 + occurrences id l2)%nat.
Proof.
  unfold occurrences. now rewrite List.filter_app, length_app.
Qed.

Lemma occurrences_teammates (playerMatch : MatchDetail) (team : list MatchDetail)
    (id : string) :
  occurrences id (teammatesOf playerMatch team)
  = if String.eqb id (steamID (player playerMatch)) then 0%nat
    else occurrences id team.
Proof.
  unfold occurrences, teammatesOf.
  induction team as [| t team IH]; simpl.
  - now destruct (String.eqb id _).
  - destruct (String.eqb (steamID (player t)) (steamID (player playerMatch))) eqn:E1;
      destruct (String.eqb (steamID (player t)) id) eqn:E2;
      destruct (String.eqb id (steamID (player playerMatch))) eqn:E3;
      simpl; rewrite ?E2; simpl; rewrite IH, ?E3; try reflexivity; exfalso;
      rewrite ?String.eqb_eq, ?String.eqb_neq in *; congruence.
Qed.

Lemma mapM_Ok_iff {A B : Type} (f : A -> result B) (xs : list A) (ys : list B) :
  mapM f xs = Ok ys <-> Forall2 (fun x y => f x = Ok y) xs ys.
Proof.
  split; [apply mapM_Forall2 |].
  induction 1 as [| x y xs ys Hx _ IH]; simpl; [reflexivity |].
  now rewrite Hx, IH.
Qed.

(** [xs.map(f)] throws what the first failing call throws. *)
Lemma mapM_Err_iff {A B : Type} (f : A -> result B) (xs : list A) (e : error) :
  mapM f xs = Err e
  <-> exists before x after,
        xs = before ++ x :: after
        /\ Forall (fun x' => exists y, f x' = Ok y) before
        /\ f x = Err e.
Proof.
  split.
  - induction xs as [| x xs IH]; simpl; [discriminate |].
    destruct (f x) as [y | e'] eqn:Ex; simpl.
    + destruct (mapM f xs) as [ys | e'] eqn:Exs; simpl; [discriminate |].
      intros [= ->]. destruct (IH eq_refl) as (before & x' & after & -> & Hb & Hx').
      exists (x :: before), x', after. split; [reflexivity |].
      split; [constructor; eauto | exact Hx'].
    + intros [= ->]. exists [], x, xs. split; [reflexivity |].
      split; [constructor | exact Ex].
  - intros (before & x & after & -> & Hb & Hx).
    induction Hb as [| x' before [y Hy] _ IH]; simpl.
    + now rewrite Hx.
    + now rewrite Hy, IH.
Qed.

(** C10.  For a team of at least 2 records the carry adjustment calls the
    evaluator of the main computation once for every teammate (every record
    of the team with another [steamID] than the subject's), each time on the
    population [team ++ teammates].  It returns exactly when all these
    evaluations return, with the value the scores they return give; it
    throws exactly what the first failing one of them throws.  In that
    population the subject's records occur as often as in the team and every
    other player's records twice as often. *)
Theorem C10_carry_population {PM : PerformanceModule} (playerMatch : MatchDetail)
    (team : list MatchDetail) (playerPerformance : PlayerPerformance)
    (isWinner : bool) :
  (2 <= length team)%nat ->
  let teammates := teammatesOf playerMatch team in
  let population := team ++ teammates in
  let carry := calculateCarryAdjustment playerMatch team playerPerformance isWinner in
  (forall t, t ∈ teammates
     <-> t ∈ team /\ steamID (player t) <> steamID (player playerMatch))
  /\ (forall r,
        carry = Ok r
        <-> exists perfs,
              Forall2 (fun t perf => calculateIndividualPerformance t population = Ok perf)
                      teammates perfs
              /\ r = carryFromScores playerPerformance perfs isWinner)
  /\ (forall e,
        carry = Err e
        <-> exists before t after,
              teammates = before ++ t :: after
              /\ Forall (fun t' => exists perf,
                           calculateIndividualPerformance t' population = Ok perf)
                        before
              /\ calculateIndividualPerformance t population = Err e)
  /\ length population = (length team + length teammates)%nat
  /\ occurrences (steamID (player playerMatch)) population
     = occurrences (steamID (player playerMatch)) team
  /\ (forall id, id <> steamID (player playerMatch) ->
        occurrences id population = (2 * occurrences id team)%nat).
Proof.
  intros Hlen teammates population carry.
  assert (carry
          = bind (mapM (fun t => calculateIndividualPerformance t population) teammates)
                 (fun perfs => Ok (carryFromScores playerPerformance perfs isWinner)))
    as Hcarry.
  { subst carry. unfold calculateCarryAdjustment.
    assert ((length team <? 2)%nat = false) as -> by (apply Nat.ltb_ge; lia).
    reflexivity. }
  split; [| split; [| split; [| split; [| split]]]].
  - intros t. apply teammatesOf_elem.
  - intros r. rewrite Hcarry. split.
    + destruct (mapM _ teammates) as [perfs |] eqn:Hmap; simpl; [| discriminate].
      intros [= <-]. exists perfs. split; [| reflexivity].
      now apply mapM_Ok_iff.
    + intros (perfs & Hall & ->). apply mapM_Ok_iff in Hall. now rewrite Hall.
  - intros e. rewrite Hcarry, <- mapM_Err_iff.
    destruct (mapM _ teammates) as [perfs | e']; simpl;
      split; congruence.
  - apply length_app.
  - subst population teammates.
    rewrite occurrences_app, occurrences_teammates, String.eqb_refl. lia.
  - intros id Hid. subst population teammates.
    rewrite occurrences_app, occurrences_teammates.
    apply String.eqb_neq in Hid. rewrite Hid. lia.
Qed.

(** With the evaluator that counts the records of a player in the
    population: in a team of three players of one record each, the two
    teammates of ["a"] score 2, not 1, and the carry adjustment of ["a"],
    whose own score is 1, is [round(max(-12, -1 * 8)) = -8]. *)
Lemma C10_carry_population_witness :
  @calculateCarryAdjustment countingPerformance (record "a" Blue 1)
    [record "a" Blue 1; record "b" Blue 1; record "c" Blue 1]
    (mkPerformance 1 0) true = Ok (-8)%Q.
Proof.
  destruct (@C10_carry_population countingPerformance (record "a" Blue 1)
              [record "a" Blue 1; record "b" Blue 1; record "c" Blue 1]
              (mkPerformance 1 0) true ltac:(simpl; lia))
    as (_ & Hreturns & _).
  apply Hreturns. exists [mkPerformance 2 0; mkPerformance 2 0].
  split; [| reflexivity].
  repeat constructor.
Defined.

(** ** The conversion loop *)

Lemma sameRecord_refl (m : MatchDetail) : sameRecord m m.
Proof. now repeat split. Qed.

Lemma sameRecord_trans (m1 m2 m3 : MatchDetail) :
  sameRecord m1 m2 -> sameRecord m2 m3 -> sameRecord m1 m3.
Proof. unfold sameRecord. intros (? & ? & ?) (? & ? & ?). repeat split; congruence. Qed.

Lemma sameRecord_setMMR (a d : Q) (m : MatchDetail) : sameRecord m (setMMR a d m).
Proof. now repeat split. Qed.

Lemma evolves_refl (c : MatchContext) (s : LoopState) : evolves c s s.
Proof.
  split; [reflexivity |]. split; [| reflexivity].
  intros j m Hm. exists m. split; [exact Hm | apply sameRecord_refl].
Qed.

Lemma evolves_trans (c : MatchContext) (s1 s2 s3 : LoopState) :
  evolves c s1 s2 -> evolves c s2 s3 -> evolves c s1 s3.
Proof.
  intros (L1 & R1 & P1) (L2 & R2 & P2). split; [congruence |]. split.
  - intros j m Hm. destruct (R1 j m Hm) as (m2 & Hm2 & S12).
    destruct (R2 j m2 Hm2) as (m3 & Hm3 & S23).
    exists m3. split; [exact Hm3 | eapply sameRecord_trans; eauto].
  - intros id Hid. rewrite P2, P1; auto.
Qed.

Section Loop.
Context {PM : PerformanceModule} {RM : RatingModule}.
Variable c : MatchContext.

(** A player in a first match: both outputs are the initial MMR, and the
    performance object is left alone. *)
Lemma playerMMR_first teamIdx team idx m perf0 o :
  isFirstMatchOf (previousMatchDetails c !! steamID (player m)) = true ->
  playerMMR c teamIdx team idx m perf0 = Ok o ->
  exists perf,
    perf0 = Some perf
    /\ o = mkOutcome
             (calculateInitialMMR (newRatingAt (newRatings c) teamIdx idx) perf)
             (calculateInitialMMR (newRatingAt (newRatings c) teamIdx idx) perf)
             perf.
Proof.
  intros Hfirst. unfold playerMMR. rewrite Hfirst.
  destruct perf0 as [perf |]; [| discriminate].
  intros [= <-]. now exists perf.
Qed.

(** An established player: the four quantities, the clamp and the floor. *)
Lemma playerMMR_established teamIdx team idx m perf0 o :
  isFirstMatchOf (previousMatchDetails c !! steamID (player m)) = false ->
  playerMMR c teamIdx team idx m perf0 = Ok o ->
  exists perf base carry,
    perf0 = Some perf
    /\ convertRatingChangeToMMR
         (if (teamIdx =? 0)%nat then blueRatings c !! idx else redRatings c !! idx)
         (newRatingAt (newRatings c) teamIdx idx) = Ok base
    /\ calculateCarryAdjustment m team perf (isWinnerOf (winner c) teamIdx) = Ok carry
    /\ finalDelta o
       = clampMMRDelta
           (Math_round
              ((base
                + calculatePerformanceAdjustment perf
                    (isWinnerOf (winner c) teamIdx) (length team)
                + carry)
               * calculateBalanceFactor (skillDifference c)
                   (isWinnerOf (winner c) teamIdx)
                   (if (teamIdx =? 0)%nat then blueAvgSkill c else redAvgSkill c)
                   (if (teamIdx =? 0)%nat then redAvgSkill c else blueAvgSkill c)))
           (isWinnerOf (winner c) teamIdx)
    /\ finalMMR o
       = Math_max 0
           (previousMMROf (previousMatchDetails c !! steamID (player m))
            + finalDelta o)
    /\ finalPerformance o
       = mkPerformance (score perf)
           (calculatePerformanceAdjustment perf
              (isWinnerOf (winner c) teamIdx) (length team) + carry).
Proof.
  intros Hfirst. unfold playerMMR. rewrite Hfirst.
  destruct perf0 as [perf |]; [| discriminate].
  destruct (convertRatingChangeToMMR _ _) as [base |] eqn:Hbase; [| discriminate].
  simpl.
  destruct (calculateCarryAdjustment _ _ _ _) as [carry |] eqn:Hcarry;
    [| discriminate].
  simpl. intros [= <-]. exists perf, base, carry. simpl. auto 10.
Qed.

Lemma playerStep_inv teamIdx team idx i s s' :
  playerStep c teamIdx team idx i s = Ok s' ->
  exists m o,
    s.1 !! i = Some m
    /\ playerMMR c teamIdx (deref s.1 team) idx m (s.2 !! steamID (player m)) = Ok o
    /\ s'.1 = alter (setMMR (finalMMR o) (finalDelta o)) i s.1
    /\ s'.2 = <[steamID (player m) := finalPerformance o]> s.2.
Proof.
  unfold playerStep. destruct (s.1 !! i) as [m |]; [| discriminate].
  destruct (playerMMR _ _ _ _ _ _) as [o |] eqn:Ho; [| discriminate].
  simpl. intros [= <-]. now exists m, o.
Qed.

Lemma playerStep_evolves teamIdx team idx i s s' :
  playerStep c teamIdx team idx i s = Ok s' -> evolves c s s'.
Proof.
  intros Hstep. apply playerStep_inv in Hstep as (m & o & Hm & Ho & H1 & H2).
  split; [| split].
  - rewrite H1. apply length_alter.
  - intros j mj Hj. rewrite H1. destruct (decide (i = j)) as [<- | Hne].
    + rewrite list_lookup_alter_eq, Hj. simpl. eexists. split; [reflexivity |].
      apply sameRecord_setMMR.
    + rewrite list_lookup_alter_ne by exact Hne.
      exists mj. split; [exact Hj | apply sameRecord_refl].
  - intros id Hid. rewrite H2.
    destruct (decide (steamID (player m) = id)) as [<- | Hne].
    + apply playerMMR_first in Ho as (perf & Hperf & ->); [| exact Hid].
      simpl. rewrite lookup_insert_eq. now rewrite Hperf.
    + now apply lookup_insert_ne.
Qed.

Lemma teamLoop_evolves teamIdx team rest : forall idx s s' r,
  teamLoop c teamIdx team idx rest s = (s', r) -> evolves c s s'.
Proof.
  induction rest as [| i rest IH]; intros idx s s' r; simpl.
  - intros [= <- _]. apply evolves_refl.
  - destruct (playerStep c teamIdx team idx i s) as [s1 |] eqn:Hstep.
    + intros Hloop. eapply evolves_trans.
      * eapply playerStep_evolves; eauto.
      * eapply IH; eauto.
    + intros [= <- _]. apply evolves_refl.
Qed.

(** The loop over a team writes into the records of that team only. *)
Lemma teamLoop_frame teamIdx team rest : forall idx s s' r j,
  teamLoop c teamIdx team idx rest s = (s', r) ->
  j ∉ rest -> s'.1 !! j = s.1 !! j.
Proof.
  induction rest as [| i rest IH]; intros idx s s' r j; simpl.
  - now intros [= <- _] _.
  - intros Hloop Hj. apply not_elem_of_cons in Hj as [Hne Hj].
    destruct (playerStep c teamIdx team idx i s) as [s1 |] eqn:Hstep.
    + rewrite (IH _ _ _ _ _ Hloop Hj).
      apply playerStep_inv in Hstep as (m & o & _ & _ & -> & _).
      apply list_lookup_alter_ne. congruence.
    + now injection Hloop as <- _.
Qed.

(** When the loop over a team completes, the record at element [n] of the
    rest holds what its iteration computed. *)
Lemma teamLoop_written teamIdx team rest : forall idx s s',
  teamLoop c teamIdx team idx rest s = (s', Ok tt) ->
  NoDup rest ->
  forall n i, rest !! n = Some i ->
  exists s1 m o,
    evolves c s s1
    /\ s1.1 !! i = Some m
    /\ playerMMR c teamIdx (deref s1.1 team) (idx + n) m
         (s1.2 !! steamID (player m)) = Ok o
    /\ s'.1 !! i = Some (setMMR (finalMMR o) (finalDelta o) m).
Proof.
  induction rest as [| i0 rest IH]; intros idx s s' Hloop Hnodup n i Hn.
  - destruct n; discriminate.
  - simpl in Hloop. apply NoDup_cons in Hnodup as [Hfresh Hnodup].
    destruct (playerStep c teamIdx team idx i0 s) as [s1 |] eqn:Hstep;
      [| discriminate].
    destruct n as [| n]; simpl in Hn.
    + injection Hn as ->.
      pose proof (playerStep_inv _ _ _ _ _ _ Hstep) as (m & o & Hm & Ho & H1 & _).
      exists s, m, o. split; [apply evolves_refl |].
      split; [exact Hm |]. rewrite Nat.add_0_r. split; [exact Ho |].
      rewrite (teamLoop_frame _ _ _ _ _ _ _ _ Hloop Hfresh), H1.
      now rewrite list_lookup_alter_eq, Hm.
    + destruct (IH _ _ _ Hloop Hnodup n i Hn) as (s2 & m & o & Hev & Hm & Ho & Hw).
      exists s2, m, o. split.
      { eapply evolves_trans; [eapply playerStep_evolves; eauto | exact Hev]. }
      split; [exact Hm |]. split; [| exact Hw].
      now replace (idx + S n)%nat with (S idx + n)%nat by lia.
Qed.

(** The same for the loop over both teams. *)
Lemma mmrLoop_written blue red s s' :
  mmrLoop c blue red s = (s', Ok tt) ->
  NoDup (blue ++ red) ->
  forall teamIdx n i,
    (if (teamIdx =? 0)%nat then blue else red) !! n = Some i ->
    (teamIdx = 0 \/ teamIdx = 1)%nat ->
    exists s1 m o,
      evolves c s s1
      /\ s1.1 !! i = Some m
      /\ playerMMR c teamIdx
           (deref s1.1 (if (teamIdx =? 0)%nat then blue else red)) n m
           (s1.2 !! steamID (player m)) = Ok o
      /\ s'.1 !! i = Some (setMMR (finalMMR o) (finalDelta o) m).
Proof.
  unfold mmrLoop. intros Hloop Hnodup teamIdx n i Hn Hidx.
  apply NoDup_app in Hnodup as (Hblue & Hdisjoint & Hred).
  destruct (teamLoop c 0 blue 0 blue s) as [smid [[] |]] eqn:Hfirst;
    [| discriminate].
  destruct Hidx as [-> | ->]; simpl in Hn |- *.
  - destruct (teamLoop_written _ _ _ _ _ _ Hfirst Hblue n i Hn)
      as (s1 & m & o & Hev & Hm & Ho & Hw).
    exists s1, m, o. repeat split; try assumption.
    + apply Hev.
    + apply Hev.
    + apply Hev.
    + rewrite (teamLoop_frame _ _ _ _ _ _ _ _ Hloop); [exact Hw |].
      apply Hdisjoint. apply list_elem_of_lookup. eauto.
  - destruct (teamLoop_written _ _ _ _ _ _ Hloop Hred n i Hn)
      as (s1 & m & o & Hev & Hm & Ho & Hw).
    exists s1, m, o. split; [| auto].
    eapply evolves_trans; [eapply teamLoop_evolves; eauto | exact Hev].
Qed.

End Loop.

(** ** Rosters *)

Lemma roster_elem (col : TeamColor) (md : list MatchDetail) (i : nat) :
  i ∈ roster col md <-> exists m, md !! i = Some m /\ hasColor col m = true.
Proof.
  unfold roster. rewrite list_elem_of_In, filter_In, in_seq. split.
  - intros [_ Hcol]. destruct (md !! i) as [m |]; [eauto | discriminate].
  - intros (m & Hm & Hcol). rewrite Hm. split; [| exact Hcol].
    apply lookup_lt_Some in Hm. lia.
Qed.

Lemma hasColor_teamIndex (m : MatchDetail) :
  hasColor (if (teamIndex m =? 0)%nat then Blue else Red) m = true.
Proof. unfold hasColor, teamIndex. now destruct (model m). Qed.

Lemma hasColor_exclusive (m : MatchDetail) :
  hasColor Blue m = true -> hasColor Red m = true -> False.
Proof. unfold hasColor. now destruct (model m). Qed.

Lemma roster_NoDup (md : list MatchDetail) :
  NoDup (roster Blue md ++ roster Red md).
Proof.
  apply NoDup_app. split; [| split].
  - unfold roster. apply NoDup_ListNoDup, List.NoDup_filter, seq_NoDup.
  - intros i Hb Hr. apply roster_elem in Hb as (m & Hm & Hb).
    apply roster_elem in Hr as (m' & Hm' & Hr).
    rewrite Hm in Hm'. injection Hm' as <-.
    eapply hasColor_exclusive; eauto.
  - unfold roster. apply NoDup_ListNoDup, List.NoDup_filter, seq_NoDup.
Qed.

Lemma organizeTeams_inv (md : list MatchDetail) (blue red : list nat) :
  organizeTeams md = Ok (blue, red) ->
  blue = roster Blue md /\ red = roster Red md /\ blue <> [] /\ red <> [].
Proof.
  unfold organizeTeams.
  destruct (roster Blue md) as [| b bs]; [discriminate |].
  destruct (roster Red md) as [| r rs]; [discriminate |].
  intros [= <- <-]. now repeat split.
Qed.

(** ** processMatch as a whole *)

Section Match.
Context {PM : PerformanceModule} {RM : RatingModule}
        {TM : TeamModule} {OS : OpenSkill}.

(** What the first part of [processMatch] hands to the conversion loop. *)
Lemma prepare_inv st md prev st' p :
  prepare st md prev = (st', Ok p) ->
  blueTeam p = roster Blue md
  /\ redTeam p = roster Red md
  /\ previousMatchDetails (context p) = prev
  /\ winner (context p)
     = determineWinner (deref md (roster Blue md)) (deref md (roster Red md))
  /\ collectPerformances md md ∅ = Ok (playerPerformances p)
  /\ newRatings (context p)
     = rate [blueRatings (context p); redRatings (context p)]
         (if String.eqb (winner (context p)) "blue" then [1; 2] else [2; 1])%nat
  /\ skillDifference (context p)
     = nabs (nsub (calculateTeamSkill (blueRatings (context p)))
                  (calculateTeamSkill (redRatings (context p))))
  /\ blueAvgSkill (context p) = calculateTeamSkill (blueRatings (context p))
  /\ redAvgSkill (context p) = calculateTeamSkill (redRatings (context p)).
Proof.
  unfold prepare.
  destruct (organizeTeams md) as [[blue red] |] eqn:Hteams; [| discriminate].
  apply organizeTeams_inv in Hteams as (-> & -> & _ & _).
  destruct (teamRatings st _) as [ratings1 blueRatings0].
  destruct (teamRatings ratings1 _) as [ratings2 redRatings0].
  destruct (collectPerformances md md ∅) as [perfs |]; [| discriminate].
  intros [= <- <-]. simpl. repeat split; try reflexivity.
  now destruct (String.eqb _ "blue").
Qed.

Lemma processMatch_Ok_inv st md prev st' md' :
  processMatch st md prev = (st', md', Ok tt) ->
  exists p pf',
    prepare st md prev = (st', Ok p)
    /\ mmrLoop (context p) (blueTeam p) (redTeam p) (md, playerPerformances p)
       = ((md', pf'), Ok tt).
Proof.
  unfold processMatch.
  destruct (prepare st md prev) as [ratings [p |]]; [| discriminate].
  destruct (mmrLoop _ _ _ _) as [[md1 pf1] r] eqn:Hloop.
  simpl. intros [= <- <- ->]. now exists p, pf1.
Qed.

(** When [processMatch] returns, every record holds the two values its
    iteration of the conversion loop computed: the iteration of its own
    team, at its place [n] in the roster. *)
Lemma processMatch_written st md prev st' md' :
  processMatch st md prev = (st', md', Ok tt) ->
  exists p,
    prepare st md prev = (st', Ok p)
    /\ forall i m', md' !! i = Some m' ->
       exists n s1 m o,
         teamAt p (teamIndex m') !! n = Some i
         /\ evolves (context p) (md, playerPerformances p) s1
         /\ s1.1 !! i = Some m
         /\ sameRecord m m'
         /\ playerMMR (context p) (teamIndex m')
              (deref s1.1 (teamAt p (teamIndex m'))) n m
              (s1.2 !! steamID (player m)) = Ok o
         /\ m' = setMMR (finalMMR o) (finalDelta o) m.
Proof.
  intros Hrun. apply processMatch_Ok_inv in Hrun as (p & pf' & Hprep & Hloop).
  exists p. split; [exact Hprep |]. intros i m' Hm'.
  pose proof (prepare_inv _ _ _ _ _ Hprep) as (Hblue & Hred & _).
  assert (evolves (context p) (md, playerPerformances p) (md', pf')) as Hev.
  { unfold mmrLoop in Hloop.
    destruct (teamLoop (context p) 0 _ 0 _ _) as [smid [[] |]] eqn:Hfirst;
      [| discriminate].
    eapply evolves_trans; eapply teamLoop_evolves; eauto. }
  destruct Hev as (Hlen & _ & _). simpl in Hlen.
  assert (is_Some (md !! i)) as [m0 Hm0].
  { apply lookup_lt_is_Some. rewrite <- Hlen. now apply lookup_lt_Some in Hm'. }
  assert (exists n, teamAt p (teamIndex m0) !! n = Some i) as [n Hn].
  { apply list_elem_of_lookup. unfold teamAt.
    pose proof (hasColor_teamIndex m0) as Hcol.
    destruct (teamIndex m0 =? 0)%nat; [rewrite Hblue | rewrite Hred];
      apply roster_elem; eauto. }
  assert (NoDup (blueTeam p ++ redTeam p)) as Hnodup.
  { rewrite Hblue, Hred. apply roster_NoDup. }
  destruct (mmrLoop_written _ _ _ _ _ Hloop Hnodup (teamIndex m0) n i)
    as (s1 & m & o & Hev & Hm & Ho & Hw).
  { exact Hn. }
  { unfold teamIndex. destruct (model m0); auto. }
  simpl in Hw. rewrite Hm' in Hw. injection Hw as ->.
  destruct Hev as (Hlen1 & Hrec & Hperf).
  destruct (Hrec i m0 Hm0) as (m1 & Hm1 & Hsame). rewrite Hm in Hm1.
  injection Hm1 as <-.
  assert (teamIndex (setMMR (finalMMR o) (finalDelta o) m) = teamIndex m0) as Hidx.
  { unfold teamIndex. simpl. destruct Hsame as (_ & <- & _). reflexivity. }
  rewrite Hidx. exists n, s1, m, o.
  split; [exact Hn |]. split; [now repeat split |].
  split; [exact Hm |]. split; [apply sameRecord_setMMR |]. now split.
Qed.

End Match.

(** ** C2: the bounds of an established player's delta *)

Lemma clampMMRDelta_integer (z : Z) (w : bool) :
  exists z', (clampMMRDelta (inject_Z z) w == inject_Z z')%Q.
Proof.
  unfold clampMMRDelta, Math_max, Math_min. destruct w.
  - destruct (Q.max_spec 2 (Qmin 40 (inject_Z z))) as [[_ H1] | [_ H1]];
      [| exists 2%Z; exact H1].
    destruct (Q.min_spec 40 (inject_Z z)) as [[_ H2] | [_ H2]].
    + exists 40%Z. now rewrite H1, H2.
    + exists z. now rewrite H1, H2.
  - destruct (Q.max_spec (-40) (Qmin (-2) (inject_Z z))) as [[_ H1] | [_ H1]];
      [| exists (-40)%Z; exact H1].
    destruct (Q.min_spec (-2) (inject_Z z)) as [[_ H2] | [_ H2]].
    + exists (-2)%Z. now rewrite H1, H2.
    + exists z. now rewrite H1, H2.
Qed.

(** C2.  When [processMatch] returns, the [mmrDelta] of every established
    player (one whose previous match detail is not [null]) is an integer in
    [2, 40] if the player's team won and in [-40, -2] if it did not: never
    zero, never beyond 40 in size. *)
Theorem C2_established_delta_bounds
    {PM : PerformanceModule} {RM : RatingModule} {TM : TeamModule} {OS : OpenSkill}
    (st : gmap string Rating) (md : list MatchDetail)
    (prev : gmap string (option MatchDetail))
    (st' : gmap string Rating) (md' : list MatchDetail) :
  processMatch st md prev = (st', md', Ok tt) ->
  forall i m', md' !! i = Some m' ->
    isFirstMatchOf (prev !! steamID (player m')) = false ->
    exists d,
      mmrDelta m' = Some d
      /\ (let won :=
            isWinnerOf
              (determineWinner (deref md (roster Blue md)) (deref md (roster Red md)))
              (teamIndex m') in
          (won = true -> (2 <= d <= 40)%Q)
          /\ (won = false -> (-40 <= d <= -2)%Q))
      /\ ~ (d == 0)%Q
      /\ exists z, (d == inject_Z z)%Q.
Proof.
  intros Hrun i m' Hm' Hest.
  apply processMatch_written in Hrun as (p & Hprep & Hall).
  destruct (Hall i m' Hm') as (n & s1 & m & o & _ & _ & _ & _ & Ho & ->).
  apply prepare_inv in Hprep as (_ & _ & Hprev & Hwin & _).
  change (teamIndex (setMMR (finalMMR o) (finalDelta o) m)) with (teamIndex m) in *.
  simpl in Hest. rewrite <- Hprev in Hest.
  apply playerMMR_established in Ho as (perf & base & carry & _ & _ & _ & Hd & _);
    [| exact Hest].
  exists (finalDelta o). split; [reflexivity |].
  rewrite <- Hwin, Hd. unfold Math_round.
  destruct (isWinnerOf (winner (context p)) (teamIndex m)).
  - match goal with
    | |- context [clampMMRDelta ?x true] =>
        pose proof (clampMMRDelta_winner x) as Hb
    end.
    split; [split; [intros _; exact Hb | discriminate] |].
    split; [lra | apply clampMMRDelta_integer].
  - match goal with
    | |- context [clampMMRDelta ?x false] =>
        pose proof (clampMMRDelta_loser x) as Hb
    end.
    split; [split; [discriminate | intros _; exact Hb] |].
    split; [lra | apply clampMMRDelta_integer].
Qed.

(** In the sample match ["c"] is established and on the losing red team:
    its raw delta of 12 is clamped to -2. *)
Lemma C2_established_delta_bounds_witness :
  exists m' d,
    sampleOutput !! 2%nat = Some m'
    /\ mmrDelta m' = Some d
    /\ (-40 <= d <= -2)%Q.
Proof.
  assert (@processMatch statsPerformance sampleRating blueWins sampleOpenSkill
            ∅ sampleMatch samplePrevious = (sampleStore, sampleOutput, Ok tt))
    as Hrun by (vm_compute; reflexivity).
  eexists.
  edestruct (@C2_established_delta_bounds statsPerformance sampleRating blueWins
               sampleOpenSkill _ _ _ _ _ Hrun 2%nat)
    as (d & Hd & [_ Hlost] & _).
  - vm_compute. reflexivity.
  - vm_compute. reflexivity.
  - exists d. split; [vm_compute; reflexivity |]. split; [exact Hd |].
    apply Hlost. vm_compute. reflexivity.
Defined.

(** ** C4: the first match *)

(** Every performance in the map is what the evaluator returned for a record
    of the match, with the whole match for its population. *)
Lemma collectPerformances_lookup {PM : PerformanceModule}
    (md rest : list MatchDetail) : forall acc perfs,
  collectPerformances md rest acc = Ok perfs ->
  forall id perf, perfs !! id = Some perf ->
    acc !! id = Some perf
    \/ exists m0, m0 ∈ rest /\ steamID (player m0) = id
                  /\ calculateIndividualPerformance m0 md = Ok perf.
Proof.
  induction rest as [| x rest IH]; intros acc perfs; simpl.
  - intros [= <-] id perf Hperf. now left.
  - destruct (calculateIndividualPerformance x md) as [px |] eqn:Hx; [| discriminate].
    simpl. intros Hrest id perf Hperf.
    destruct (IH _ _ Hrest id perf Hperf) as [Hacc | (m0 & Hin & Hid & Hm0)].
    + destruct (decide (steamID (player x) = id)) as [Heq | Hne].
      * rewrite <- Heq, lookup_insert_eq in Hacc. injection Hacc as <-.
        right. exists x. split; [apply list_elem_of_here | auto].
      * rewrite lookup_insert_ne in Hacc by exact Hne. now left.
    + right. exists m0. split; [now apply list_elem_of_further | auto].
Qed.

(** C4.  When [processMatch] returns, the record of a player in a first
    match (previous match detail [null]) has [mmrDelta] and [mmrAfterMatch]
    both equal to [calculateInitialMMR(newRating, performance)], where
    [newRating] is the oracle's rating for the player's place in the roster
    and [performance] is what the evaluator returned for the player in the
    main computation, untouched: nothing of the base change, the
    performance adjustment, the balance factor or the carry adjustment
    enters. *)
Theorem C4_first_match
    {PM : PerformanceModule} {RM : RatingModule} {TM : TeamModule} {OS : OpenSkill}
    (st : gmap string Rating) (md : list MatchDetail)
    (prev : gmap string (option MatchDetail))
    (st' : gmap string Rating) (md' : list MatchDetail) :
  processMatch st md prev = (st', md', Ok tt) ->
  forall i m', md' !! i = Some m' ->
    prev !! steamID (player m') = Some None ->
    exists p n m0 performance,
      prepare st md prev = (st', Ok p)
      /\ teamAt p (teamIndex m') !! n = Some i
      /\ m0 ∈ md
      /\ steamID (player m0) = steamID (player m')
      /\ calculateIndividualPerformance m0 md = Ok performance
      /\ let newRating := newRatingAt (newRatings (context p)) (teamIndex m') n in
         mmrDelta m' = Some (calculateInitialMMR newRating performance)
         /\ mmrAfterMatch m' = Some (calculateInitialMMR newRating performance).
Proof.
  intros Hrun i m' Hm' Hnull.
  apply processMatch_written in Hrun as (p & Hprep & Hall).
  destruct (Hall i m' Hm') as (n & s1 & m & o & Hn & Hev & _ & _ & Ho & ->).
  pose proof (prepare_inv _ _ _ _ _ Hprep) as (_ & _ & Hprev & _ & Hperfs & _).
  change (teamIndex (setMMR (finalMMR o) (finalDelta o) m)) with (teamIndex m) in *.
  change (steamID (player (setMMR (finalMMR o) (finalDelta o) m)))
    with (steamID (player m)) in *.
  assert (isFirstMatchOf (previousMatchDetails (context p) !! steamID (player m))
          = true) as Hfirst by now rewrite Hprev, Hnull.
  apply playerMMR_first in Ho as (perf & Hperf & ->); [| exact Hfirst].
  destruct Hev as (_ & _ & Hstable). rewrite (Hstable _ Hfirst) in Hperf.
  simpl in Hperf.
  destruct (collectPerformances_lookup _ _ _ _ Hperfs _ _ Hperf)
    as [Hempty | (m0 & Hin & Hid & Hm0)].
  { now rewrite lookup_empty in Hempty. }
  exists p, n, m0, perf. now repeat split.
Qed.

(** In the sample match ["a"] plays a first match: the oracle's new rating
    has [mu = 25.5], so that both outputs are the initial MMR, 1020. *)
Lemma C4_first_match_witness :
  exists m' v,
    sampleOutput !! 0%nat = Some m'
    /\ mmrDelta m' = Some v /\ mmrAfterMatch m' = Some v /\ (v == 1020)%Q.
Proof.
  assert (@processMatch statsPerformance sampleRating blueWins sampleOpenSkill
            ∅ sampleMatch samplePrevious = (sampleStore, sampleOutput, Ok tt))
    as Hrun by (vm_compute; reflexivity).
  eexists.
  edestruct (@C4_first_match statsPerformance sampleRating blueWins
               sampleOpenSkill _ _ _ _ _ Hrun 0%nat)
    as (p & n & m0 & perf & _ & _ & _ & _ & _ & Hd & Ha).
  - vm_compute. reflexivity.
  - vm_compute. reflexivity.
  - eexists. split; [vm_compute; reflexivity |].
    split; [exact Hd |]. split; [exact Ha |].
    match type of Hd with
    | ?l = Some ?v =>
        assert (exists c, l = Some c /\ (c == 1020)%Q) as (c & Hc & Hvalue)
          by (eexists; split; [vm_compute; reflexivity | vm_compute; reflexivity])
    end.
    rewrite Hd in Hc. injection Hc as Hc. subst c. exact Hvalue.
Defined.

(** ** The outputs of a call that returns *)

Lemma keepsScores_refl (s : LoopState) : keepsScores s s.
Proof. now intros id. Qed.

Lemma keepsScores_trans (s1 s2 s3 : LoopState) :
  keepsScores s1 s2 -> keepsScores s2 s3 -> keepsScores s1 s3.
Proof. intros H1 H2 id. now rewrite H2, H1. Qed.

(** The records of a roster, read in a later state of the loop. *)
Lemma deref_sameRecord (md md1 : list MatchDetail) (team : list nat) :
  length md1 = length md ->
  (forall j m, md !! j = Some m -> exists m', md1 !! j = Some m' /\ sameRecord m m') ->
  Forall2 sameRecord (deref md team) (deref md1 team).
Proof.
  intros Hlen Hrec. unfold deref.
  induction team as [| i team IH]; simpl; [constructor |].
  destruct (md !! i) as [m |] eqn:Hm.
  - destruct (Hrec i m Hm) as (m' & -> & Hsame). simpl. now constructor.
  - assert (md1 !! i = None) as ->.
    { apply lookup_ge_None. rewrite Hlen. now apply lookup_ge_None in Hm. }
    simpl. exact IH.
Qed.

Section Reach.
Context {PM : PerformanceModule} {RM : RatingModule}.
Variable c : MatchContext.

(** An iteration stores a performance object with the score it found. *)
Lemma playerStep_scores teamIdx team idx i s s' :
  playerStep c teamIdx team idx i s = Ok s' -> keepsScores s s'.
Proof.
  intros Hstep. apply playerStep_inv in Hstep as (m & o & Hm & Ho & _ & H2).
  intros id. rewrite H2.
  destruct (decide (steamID (player m) = id)) as [<- | Hne].
  - rewrite lookup_insert_eq. simpl.
    destruct (isFirstMatchOf (previousMatchDetails c !! steamID (player m))) eqn:Hfirst.
    + apply playerMMR_first in Ho as (perf & -> & ->); [| exact Hfirst].
      reflexivity.
    + apply playerMMR_established in Ho
        as (perf & base & carry & -> & _ & _ & _ & _ & ->); [| exact Hfirst].
      reflexivity.
  - now rewrite lookup_insert_ne.
Qed.

(** When the loop over a team completes, the record at element [n] of the
    rest holds what its iteration computed, in a state [s1] the loop had
    reached. *)
Lemma teamLoop_reaches teamIdx team rest : forall idx s s',
  teamLoop c teamIdx team idx rest s = (s', Ok tt) ->
  NoDup rest ->
  forall n i, rest !! n = Some i ->
  exists s1 m o,
    evolves c s s1
    /\ keepsScores s s1
    /\ s1.1 !! i = Some m
    /\ playerMMR c teamIdx (deref s1.1 team) (idx + n) m
         (s1.2 !! steamID (player m)) = Ok o
    /\ s'.1 !! i = Some (setMMR (finalMMR o) (finalDelta o) m).
Proof.
  induction rest as [| i0 rest IH]; intros idx s s' Hloop Hnodup n i Hn.
  - destruct n; discriminate.
  - simpl in Hloop. apply NoDup_cons in Hnodup as [Hfresh Hnodup].
    destruct (playerStep c teamIdx team idx i0 s) as [s1 |] eqn:Hstep;
      [| discriminate].
    destruct n as [| n]; simpl in Hn.
    + injection Hn as ->.
      pose proof (playerStep_inv _ _ _ _ _ _ _ Hstep) as (m & o & Hm & Ho & H1 & _).
      exists s, m, o. split; [apply evolves_refl |].
      split; [apply keepsScores_refl |].
      split; [exact Hm |]. rewrite Nat.add_0_r. split; [exact Ho |].
      rewrite (teamLoop_frame _ _ _ _ _ _ _ _ _ Hloop Hfresh), H1.
      now rewrite list_lookup_alter_eq, Hm.
    + destruct (IH _ _ _ Hloop Hnodup n i Hn)
        as (s2 & m & o & Hev & Hscores & Hm & Ho & Hw).
      exists s2, m, o. split.
      { eapply evolves_trans; [eapply playerStep_evolves; eauto | exact Hev]. }
      split.
      { eapply keepsScores_trans; [eapply playerStep_scores; eauto | exact Hscores]. }
      split; [exact Hm |]. split; [| exact Hw].
      now replace (idx + S n)%nat with (S idx + n)%nat by lia.
Qed.

Lemma teamLoop_scores teamIdx team rest : forall idx s s' r,
  teamLoop c teamIdx team idx rest s = (s', r) -> keepsScores s s'.
Proof.
  induction rest as [| i rest IH]; intros idx s s' r; simpl.
  - intros [= <- _]. apply keepsScores_refl.
  - destruct (playerStep c teamIdx team idx i s) as [s1 |] eqn:Hstep.
    + intros Hloop. eapply keepsScores_trans.
      * eapply playerStep_scores; eauto.
      * eapply IH; eauto.
    + intros [= <- _]. apply keepsScores_refl.
Qed.

(** The same for the loop over both teams. *)
Lemma mmrLoop_reaches blue red s s' :
  mmrLoop c blue red s = (s', Ok tt) ->
  NoDup (blue ++ red) ->
  forall teamIdx n i,
    (if (teamIdx =? 0)%nat then blue else red) !! n = Some i ->
    (teamIdx = 0 \/ teamIdx = 1)%nat ->
    exists s1 m o,
      evolves c s s1
      /\ keepsScores s s1
      /\ s1.1 !! i = Some m
      /\ playerMMR c teamIdx
           (deref s1.1 (if (teamIdx =? 0)%nat then blue else red)) n m
           (s1.2 !! steamID (player m)) = Ok o
      /\ s'.1 !! i = Some (setMMR (finalMMR o) (finalDelta o) m).
Proof.
  unfold mmrLoop. intros Hloop Hnodup teamIdx n i Hn Hidx.
  apply NoDup_app in Hnodup as (Hblue & Hdisjoint & Hred).
  destruct (teamLoop c 0 blue 0 blue s) as [smid [[] |]] eqn:Hfirst;
    [| discriminate].
  destruct Hidx as [-> | ->]; simpl in Hn |- *.
  - destruct (teamLoop_reaches _ _ _ _ _ _ Hfirst Hblue n i Hn)
      as (s1 & m & o & Hev & Hscores & Hm & Ho & Hw).
    exists s1, m, o. split; [exact Hev |]. split; [exact Hscores |].
    split; [exact Hm |]. split; [exact Ho |].
    rewrite (teamLoop_frame _ _ _ _ _ _ _ _ _ Hloop); [exact Hw |].
    apply Hdisjoint. apply list_elem_of_lookup. eauto.
  - destruct (teamLoop_reaches _ _ _ _ _ _ Hloop Hred n i Hn)
      as (s1 & m & o & Hev & Hscores & Hm & Ho & Hw).
    exists s1, m, o. split.
    { eapply evolves_trans; [eapply teamLoop_evolves; eauto | exact Hev]. }
    split; [| auto].
    eapply keepsScores_trans; [eapply teamLoop_scores; eauto | exact Hscores].
Qed.

End Reach.

(** When [processMatch] returns, every record holds the two values of the
    iteration of its own team at its place [n] in the roster.  That
    iteration ran on the records [team] of the roster, which are those of
    the match but for outputs already written, and on a performance object
    with the score the evaluator gave the player in the main computation:
    for a player in a first match, that very object. *)
Lemma processMatch_outputs
    {PM : PerformanceModule} {RM : RatingModule} {TM : TeamModule} {OS : OpenSkill}
    (st : gmap string Rating) (md : list MatchDetail)
    (prev : gmap string (option MatchDetail))
    (st' : gmap string Rating) (md' : list MatchDetail) :
  processMatch st md prev = (st', md', Ok tt) ->
  exists p,
    prepare st md prev = (st', Ok p)
    /\ forall i m', md' !! i = Some m' ->
       exists n team m1 performance0 performance o,
         teamAt p (teamIndex m') !! n = Some i
         /\ Forall2 sameRecord (deref md (teamAt p (teamIndex m'))) team
         /\ m1 ∈ md
         /\ steamID (player m1) = steamID (player m')
         /\ calculateIndividualPerformance m1 md = Ok performance0
         /\ score performance = score performance0
         /\ (isFirstMatchOf (prev !! steamID (player m')) = true ->
             performance = performance0)
         /\ playerMMR (context p) (teamIndex m') team n m' (Some performance) = Ok o
         /\ mmrAfterMatch m' = Some (finalMMR o)
         /\ mmrDelta m' = Some (finalDelta o).
Proof.
  intros Hrun. apply processMatch_Ok_inv in Hrun as (p & pf' & Hprep & Hloop).
  exists p. split; [exact Hprep |]. intros i m' Hm'.
  pose proof (prepare_inv _ _ _ _ _ Hprep)
    as (Hblue & Hred & Hprev & _ & Hperfs & _).
  assert (evolves (context p) (md, playerPerformances p) (md', pf')) as Hev.
  { unfold mmrLoop in Hloop.
    destruct (teamLoop (context p) 0 _ 0 _ _) as [smid [[] |]] eqn:Hfirst;
      [| discriminate].
    eapply evolves_trans; eapply teamLoop_evolves; eauto. }
  destruct Hev as (Hlen & _ & _). simpl in Hlen.
  assert (is_Some (md !! i)) as [m0 Hm0].
  { apply lookup_lt_is_Some. rewrite <- Hlen. now apply lookup_lt_Some in Hm'. }
  assert (exists n, teamAt p (teamIndex m0) !! n = Some i) as [n Hn].
  { apply list_elem_of_lookup. unfold teamAt.
    pose proof (hasColor_teamIndex m0) as Hcol.
    destruct (teamIndex m0 =? 0)%nat; [rewrite Hblue | rewrite Hred];
      apply roster_elem; eauto. }
  assert (NoDup (blueTeam p ++ redTeam p)) as Hnodup.
  { rewrite Hblue, Hred. apply roster_NoDup. }
  destruct (mmrLoop_reaches _ _ _ _ _ Hloop Hnodup (teamIndex m0) n i)
    as (s1 & m & o & Hev & Hscores & Hm & Ho & Hw).
  { exact Hn. }
  { unfold teamIndex. destruct (model m0); auto. }
  simpl in Hw. rewrite Hm' in Hw. injection Hw as ->.
  destruct Hev as (Hlen1 & Hrec & Hstable). simpl in Hlen1, Hrec, Hstable.
  destruct (Hrec i m0 Hm0) as (m1 & Hm1 & Hsame). rewrite Hm in Hm1.
  injection Hm1 as <-.
  assert (teamIndex (setMMR (finalMMR o) (finalDelta o) m) = teamIndex m0) as Hidx.
  { unfold teamIndex. simpl. destruct Hsame as (_ & <- & _). reflexivity. }
  rewrite Hidx.
  change (steamID (player (setMMR (finalMMR o) (finalDelta o) m)))
    with (steamID (player m)).
  destruct (s1.2 !! steamID (player m)) as [perf |] eqn:Hperf1;
    [| discriminate Ho].
  pose proof (Hscores (steamID (player m))) as Hscore.
  simpl in Hscore. rewrite Hperf1 in Hscore.
  destruct (playerPerformances p !! steamID (player m)) as [perf0 |] eqn:Hperf0;
    [| discriminate Hscore].
  injection Hscore as Hscore.
  destruct (collectPerformances_lookup _ _ _ _ Hperfs _ _ Hperf0)
    as [Hempty | (mm & Hin & Hid & Hmm)].
  { now rewrite lookup_empty in Hempty. }
  exists n, (deref s1.1 (teamAt p (teamIndex m0))), mm, perf0, perf, o.
  split; [exact Hn |].
  split; [now apply deref_sameRecord |].
  split; [exact Hin |]. split; [exact Hid |]. split; [exact Hmm |].
  split; [exact Hscore |]. split; [| split; [exact Ho | now split]].
  intros Hfirst. rewrite <- Hprev in Hfirst.
  specialize (Hstable _ Hfirst). rewrite Hperf1, Hperf0 in Hstable. congruence.
Qed.

(** ** C3: the floor at zero *)




(** ** C9: an oracle answer that is too short *)

(** The write-back skips the players whose updated rating is missing: their
    entry of the store stays as it is. *)
Lemma cacheTeam_skipped (ratings : list (list Rating)) (teamIdx : nat)
    (team : list MatchDetail) (id : string) : forall idx store,
  (forall n m, team !! n = Some m -> steamID (player m) = id ->
     newRatingAt ratings teamIdx (idx + n) = None) ->
  cacheTeam ratings teamIdx idx team store !! id = store !! id.
Proof.
  induction team as [| m team IH]; intros idx store Hmissing; simpl.
  - reflexivity.
  - rewrite IH.
    + destruct (newRatingAt ratings teamIdx idx) as [r |] eqn:Hr; [| reflexivity].
      apply lookup_insert_ne. intros Hid.
      specialize (Hmissing 0%nat m eq_refl Hid).
      rewrite Nat.add_0_r in Hmissing. congruence.
    + intros n m' Hn Hid.
      replace (S idx + n)%nat with (idx + S n)%nat by lia.
      now apply (Hmissing (S n) m').
Qed.

(** The conversion of an established player reads the updated rating: when
    it is missing the iteration throws. *)
Lemma playerMMR_missing_rating {PM : PerformanceModule} {RM : RatingModule}
    (c : MatchContext) (teamIdx : nat) (team : list MatchDetail) (idx : nat)
    (m : MatchDetail) (perf : PlayerPerformance) :
  isFirstMatchOf (previousMatchDetails c !! steamID (player m)) = false ->
  newRatingAt (newRatings c) teamIdx idx = None ->
  playerMMR c teamIdx team idx m (Some perf) = Err TypeError.
Proof.
  intros Hest Hnone. unfold playerMMR. now rewrite Hest, Hnone.
Qed.

(** Hence [processMatch] returns only if the oracle gave a rating for the
    place of every established player. *)
Lemma processMatch_needs_ratings
    {PM : PerformanceModule} {RM : RatingModule} {TM : TeamModule} {OS : OpenSkill}
    (st : gmap string Rating) (md : list MatchDetail)
    (prev : gmap string (option MatchDetail))
    (st' : gmap string Rating) (md' : list MatchDetail) :
  processMatch st md prev = (st', md', Ok tt) ->
  exists p,
    prepare st md prev = (st', Ok p)
    /\ forall i m', md' !! i = Some m' ->
       isFirstMatchOf (prev !! steamID (player m')) = false ->
       exists n, teamAt p (teamIndex m') !! n = Some i
                 /\ is_Some (newRatingAt (newRatings (context p)) (teamIndex m') n).
Proof.
  intros Hrun. apply processMatch_written in Hrun as (p & Hprep & Hall).
  exists p. split; [exact Hprep |]. intros i m' Hm' Hest.
  destruct (Hall i m' Hm') as (n & s1 & m & o & Hn & _ & _ & _ & Ho & ->).
  apply prepare_inv in Hprep as (_ & _ & Hprev & _).
  change (teamIndex (setMMR (finalMMR o) (finalDelta o) m)) with (teamIndex m) in *.
  simpl in Hest. rewrite <- Hprev in Hest.
  apply playerMMR_established in Ho as (perf & base & carry & _ & Hbase & _);
    [| exact Hest].
  exists n. split; [exact Hn |].
  unfold convertRatingChangeToMMR in Hbase.
  destruct (newRatingAt _ _ _); [eauto | discriminate].
Qed.

(** C9, on a failing input.  Everybody is established and the oracle's
    answer for the blue team lacks the rating of its second player ["b"].
    The write-back leaves the rating of ["b"] as it was and caches the three
    others; the conversion loop then handles ["a"], throws a [TypeError] at
    ["b"], and never reaches the red players ["c"] and ["d"], whose records
    stay without MMR. *)
Theorem C9_missing_rating_aborts_match :
  shortRun.2 = Err TypeError
  /\ shortRun.1.1 !! "b"
     = Some (@calculateInitialRating sampleRating
               (@calculateSkillProxy sampleRating (record "b" Blue 0.5)))
  /\ (exists r, shortRun.1.1 !! "c" = Some r /\ (mu r == 26.5)%Q)
  /\ (exists m, shortRun.1.2 !! 0%nat = Some m /\ is_Some (mmrDelta m))
  /\ shortRun.1.2 !! 1%nat = sampleMatch !! 1%nat
  /\ shortRun.1.2 !! 2%nat = sampleMatch !! 2%nat
  /\ shortRun.1.2 !! 3%nat = sampleMatch !! 3%nat.
Proof.
  split; [vm_compute; reflexivity |].
  split; [vm_compute; reflexivity |].
  split; [eexists; split; [vm_compute; reflexivity | vm_compute; reflexivity] |].
  split; [eexists; split; [vm_compute; reflexivity | vm_compute; eauto] |].
  repeat split; vm_compute; reflexivity.
Qed.

(** ** An evaluator error on the way out *)

(** Everybody is established and the evaluator refuses populations of fewer
    than four records.  The main computation evaluates on the four records
    of the match; the carry adjustment of ["a"] evaluates ["b"] on three
    records, the evaluator signals [InsufficientDataError], and this is what
    [calculateCarryAdjustment] and [processMatch] end with: neither has a
    handler, and no record is updated. *)
Lemma strict_evaluator_error_reaches_caller :
  @calculateCarryAdjustment strictPerformance (record "a" Blue 0.9)
    [record "a" Blue 0.9; record "b" Blue 0.5] (mkPerformance 0.9 0) true
  = Err InsufficientDataError
  /\ strictRun.2 = Err InsufficientDataError
  /\ strictRun.1.2 = sampleMatch.
Proof.
  split; [reflexivity |].
  split; vm_compute; reflexivity.
Qed.

(** ** processMatch returns

    The properties above hold of a call that returns.  It does for every
    match with two non-empty rosters, when the evaluator scores every record
    and the oracle keeps the shape of its input. *)

Lemma mapM_total {A B : Type} (f : A -> result B) (xs : list A) :
  (forall x, x ∈ xs -> exists y, f x = Ok y) -> exists ys, mapM f xs = Ok ys.
Proof.
  induction xs as [| x xs IH]; intros Hf; simpl; [eauto |].
  destruct (Hf x) as [y ->]; [apply list_elem_of_here |].
  destruct IH as [ys ->]; [| simpl; eauto].
  intros z Hz. apply Hf. now apply list_elem_of_further.
Qed.

Lemma calculateCarryAdjustment_total {PM : PerformanceModule}
    (playerMatch : MatchDetail) (team : list MatchDetail)
    (perf : PlayerPerformance) (w : bool) :
  evaluatesAll PM ->
  exists r, calculateCarryAdjustment playerMatch team perf w = Ok r.
Proof.
  intros Htotal. unfold calculateCarryAdjustment.
  destruct (length team <? 2)%nat eqn:Hlen; [eauto |].
  destruct (mapM_total
              (fun t => calculateIndividualPerformance t
                          (team ++ teammatesOf playerMatch team))
              (teammatesOf playerMatch team)) as [ys ->]; [| simpl; eauto].
  intros t _. apply Htotal. destruct team; discriminate.
Qed.

Lemma collectPerformances_total {PM : PerformanceModule}
    (md rest : list MatchDetail) : forall acc,
  evaluatesAll PM -> md <> [] ->
  exists perfs,
    collectPerformances md rest acc = Ok perfs
    /\ forall id,
         is_Some (acc !! id) \/ (exists m, m ∈ rest /\ steamID (player m) = id) ->
         is_Some (perfs !! id).
Proof.
  intros acc Htotal Hne. revert acc.
  induction rest as [| x rest IH]; intros acc; simpl.
  - exists acc. split; [reflexivity |].
    intros id [Hacc | (m & Hm & _)]; [exact Hacc | now apply elem_of_nil in Hm].
  - destruct (Htotal x md Hne) as [px ->]. simpl.
    destruct (IH (<[steamID (player x) := px]> acc)) as (perfs & -> & Hdom).
    exists perfs. split; [reflexivity |].
    intros id [Hacc | (m & Hm & Hid)]; apply Hdom.
    + left. rewrite lookup_insert_is_Some.
      destruct (decide (steamID (player x) = id)); auto.
    + apply elem_of_cons in Hm as [-> | Hm]; [| right; eauto].
      left. rewrite <- Hid, lookup_insert_eq. eauto.
Qed.

Lemma teamRatings_length {RM : RatingModule} (team : list MatchDetail) :
  forall store, length (teamRatings store team).2 = length team.
Proof.
  induction team as [| m team IH]; intros store; simpl; [reflexivity |].
  destruct (getOrCreatePlayerRating store _ m) as [ratings1 r].
  specialize (IH ratings1). destruct (teamRatings ratings1 team) as [ratings2 rs].
  simpl in *. now rewrite IH.
Qed.

Lemma deref_length (md : list MatchDetail) (team : list nat) :
  (forall i, i ∈ team -> (i < length md)%nat) ->
  length (deref md team) = length team.
Proof.
  induction team as [| i team IH]; intros Hvalid; [reflexivity |].
  unfold deref in *. simpl.
  destruct (lookup_lt_is_Some_2 md i) as [m Hm]; [apply Hvalid, list_elem_of_here |].
  rewrite Hm. simpl. f_equal. apply IH.
  intros j Hj. apply Hvalid. now apply list_elem_of_further.
Qed.

Lemma roster_valid (col : TeamColor) (md : list MatchDetail) (i : nat) :
  i ∈ roster col md -> (i < length md)%nat.
Proof.
  intros Hi. apply roster_elem in Hi as (m & Hm & _).
  now apply lookup_lt_Some in Hm.
Qed.

Section Returns.
Context {PM : PerformanceModule} {RM : RatingModule}.
Variable c : MatchContext.
Variable md : list MatchDetail.
Hypothesis Htotal : evaluatesAll PM.

Lemma playerStep_total teamIdx team idx i s :
  loopReady md s ->
  (i < length md)%nat ->
  is_Some (if (teamIdx =? 0)%nat then blueRatings c !! idx else redRatings c !! idx) ->
  is_Some (newRatingAt (newRatings c) teamIdx idx) ->
  exists s', playerStep c teamIdx team idx i s = Ok s' /\ loopReady md s'.
Proof.
  intros [Hlen Hperfs] Hi [old Hold] [new Hnew]. unfold playerStep.
  destruct (lookup_lt_is_Some_2 s.1 i) as [m Hm]; [now rewrite Hlen |].
  rewrite Hm. destruct (Hperfs i m Hm) as [perf Hperf].
  assert (exists o, playerMMR c teamIdx (deref s.1 team) idx m
                      (s.2 !! steamID (player m)) = Ok o) as [o Ho].
  { unfold playerMMR. rewrite Hperf, Hold, Hnew.
    destruct (isFirstMatchOf _); [eauto |]. simpl.
    destruct (calculateCarryAdjustment_total m (deref s.1 team) perf
                (isWinnerOf (winner c) teamIdx) Htotal) as [r ->].
    simpl. eauto. }
  rewrite Ho. simpl. eexists. split; [reflexivity |]. split; simpl.
  - now rewrite length_alter.
  - intros j mj. rewrite list_lookup_alter. destruct (decide (i = j)) as [<- | _].
    + rewrite Hm. simpl. intros [= <-]. simpl.
      rewrite lookup_insert_eq. eauto.
    + intros Hj. rewrite lookup_insert_is_Some.
      destruct (decide (steamID (player m) = steamID (player mj))); [auto |].
      right. split; [assumption | eauto].
Qed.

Lemma teamLoop_total teamIdx team rest : forall idx s,
  loopReady md s ->
  (forall n i, rest !! n = Some i ->
     (i < length md)%nat
     /\ is_Some (if (teamIdx =? 0)%nat
                 then blueRatings c !! (idx + n)%nat
                 else redRatings c !! (idx + n)%nat)
     /\ is_Some (newRatingAt (newRatings c) teamIdx (idx + n))) ->
  exists s', teamLoop c teamIdx team idx rest s = (s', Ok tt) /\ loopReady md s'.
Proof.
  induction rest as [| i rest IH]; intros idx s Hready Hrest; simpl; [eauto |].
  destruct (Hrest 0%nat i eq_refl) as (Hi & Hold & Hnew).
  rewrite Nat.add_0_r in Hold, Hnew.
  assert (is_Some (if (teamIdx =? 0)%nat
                   then blueRatings c !! idx else redRatings c !! idx)) as Hold'.
  { now destruct (teamIdx =? 0)%nat. }
  destruct (playerStep_total teamIdx team idx i s Hready Hi Hold' Hnew)
    as (s1 & -> & Hready1).
  apply IH; [exact Hready1 |].
  intros n j Hn. replace (S idx + n)%nat with (idx + S n)%nat by lia.
  now apply (Hrest (S n) j).
Qed.

End Returns.

Theorem processMatch_returns
    {PM : PerformanceModule} {RM : RatingModule} {TM : TeamModule} {OS : OpenSkill}
    (st : gmap string Rating) (md : list MatchDetail)
    (prev : gmap string (option MatchDetail)) :
  evaluatesAll PM -> wellShaped OS ->
  roster Blue md <> [] -> roster Red md <> [] ->
  exists st' md', processMatch st md prev = (st', md', Ok tt).
Proof.
  intros Htotal Hshape Hblue Hred.
  assert (md <> []) as Hmd.
  { intros ->. now apply Hblue. }
  unfold processMatch, prepare, organizeTeams.
  destruct (roster Blue md) as [| b0 bs] eqn:Eblue; [congruence |].
  destruct (roster Red md) as [| r0 rs] eqn:Ered; [congruence |].
  rewrite <- Eblue, <- Ered.
  pose proof (teamRatings_length (deref md (roster Blue md)) st) as Lblue.
  destruct (teamRatings st (deref md (roster Blue md))) as [ratings1 bR].
  pose proof (teamRatings_length (deref md (roster Red md)) ratings1) as Lred.
  destruct (teamRatings ratings1 (deref md (roster Red md))) as [ratings2 rR].
  simpl in Lblue, Lred.
  rewrite deref_length in Lblue by apply roster_valid.
  rewrite deref_length in Lred by apply roster_valid.
  destruct (collectPerformances_total md md ∅ Htotal Hmd) as (perfs & -> & Hdom).
  set (w := determineWinner (deref md (roster Blue md)) (deref md (roster Red md))).
  set (ratings := if String.eqb w "blue"
                  then rate [bR; rR] [1; 2]%nat else rate [bR; rR] [2; 1]%nat).
  assert (exists a' b', ratings = [a'; b']
                        /\ length a' = length bR /\ length b' = length rR)
    as (a' & b' & Hratings & La & Lb).
  { subst ratings. destruct (String.eqb w "blue"); apply Hshape. }
  set (ctx := mkContext prev w bR rR _ _ _ ratings).
  cbn [context blueTeam redTeam playerPerformances].
  unfold mmrLoop.
  assert (loopReady md (md, perfs)) as Hready.
  { split; [reflexivity |]. intros j m Hm. apply Hdom. right.
    exists m. split; [| reflexivity]. apply list_elem_of_lookup. eauto. }
  destruct (teamLoop_total ctx md Htotal 0 (roster Blue md) (roster Blue md)
              0 (md, perfs) Hready) as (s1 & -> & Hready1).
  { intros n i Hn. split; [| split].
    - apply (roster_valid Blue). apply list_elem_of_lookup. eauto.
    - simpl. apply lookup_lt_is_Some. rewrite Lblue. now apply lookup_lt_Some in Hn.
    - simpl. unfold newRatingAt. rewrite Hratings. simpl.
      apply lookup_lt_is_Some. rewrite La, Lblue. now apply lookup_lt_Some in Hn. }
  destruct (teamLoop_total ctx md Htotal 1 (roster Red md) (roster Red md)
              0 s1 Hready1) as (s2 & -> & _).
  { intros n i Hn. split; [| split].
    - apply (roster_valid Red). apply list_elem_of_lookup. eauto.
    - simpl. apply lookup_lt_is_Some. rewrite Lred. now apply lookup_lt_Some in Hn.
    - simpl. unfold newRatingAt. rewrite Hratings. simpl.
      apply lookup_lt_is_Some. rewrite Lb, Lred. now apply lookup_lt_Some in Hn. }
  eauto.
Qed.

(** ** C8: the carry adjustment and an evaluator without population *)

Lemma calculateCarryAdjustment_alone {PM : PerformanceModule}
    (playerMatch : MatchDetail) (team : list MatchDetail)
    (perf : PlayerPerformance) (w : bool) :
  teammatesOf playerMatch team = [] ->
  calculateCarryAdjustment playerMatch team perf w = Ok 0%Q.
Proof.
  intros Hnil. unfold calculateCarryAdjustment. rewrite Hnil.
  now destruct (length team <? 2)%nat.
Qed.

(** The teammates are picked by [steamID], which the loop never writes. *)
Lemma teammatesOf_sameRecord (playerMatch : MatchDetail)
    (team0 team : list MatchDetail) :
  Forall2 sameRecord team0 team ->
  Forall2 sameRecord (teammatesOf playerMatch team0) (teammatesOf playerMatch team).
Proof.
  unfold teammatesOf.
  induction 1 as [| t0 t l0 l Hsame _ IH]; simpl; [constructor |].
  pose proof Hsame as (<- & _).
  destruct (negb _); [now constructor | exact IH].
Qed.

Lemma convertRatingChangeToMMR_Err (oldRating newRating : option Rating) (e : error) :
  convertRatingChangeToMMR oldRating newRating = Err e -> e = TypeError.
Proof.
  unfold convertRatingChangeToMMR.
  destruct newRating, oldRating; congruence.
Qed.

Section Errors.
Context {PM : PerformanceModule} {RM : RatingModule}.
Variable c : MatchContext.
Hypothesis Htotal : evaluatesAll PM.

(** With an evaluator that scores every record on every non-empty
    population, the conversion loop can only throw a [TypeError]. *)
Lemma playerMMR_Err teamIdx team idx m perf0 e :
  playerMMR c teamIdx team idx m perf0 = Err e -> e = TypeError.
Proof.
  unfold playerMMR. destruct perf0 as [perf |]; [| congruence].
  destruct (isFirstMatchOf _); [discriminate |].
  destruct (convertRatingChangeToMMR _ _) as [base | e0] eqn:Hbase; simpl.
  - destruct (calculateCarryAdjustment_total m team perf
                (isWinnerOf (winner c) teamIdx) Htotal) as [r ->].
    discriminate.
  - intros [= <-]. eapply convertRatingChangeToMMR_Err; eauto.
Qed.

Lemma playerStep_Err teamIdx team idx i s e :
  playerStep c teamIdx team idx i s = Err e -> e = TypeError.
Proof.
  unfold playerStep. destruct (s.1 !! i) as [m |]; [| congruence].
  destruct (playerMMR _ _ _ _ _ _) as [o | e0] eqn:Ho; simpl; [discriminate |].
  intros [= <-]. eapply playerMMR_Err; eauto.
Qed.

Lemma teamLoop_Err teamIdx team rest : forall idx s s' e,
  teamLoop c teamIdx team idx rest s = (s', Err e) -> e = TypeError.
Proof.
  induction rest as [| i rest IH]; intros idx s s' e; simpl; [discriminate |].
  destruct (playerStep c teamIdx team idx i s) as [s1 | e0] eqn:Hstep.
  - apply IH.
  - intros [= _ <-]. eapply playerStep_Err; eauto.
Qed.

Lemma mmrLoop_Err blue red s s' e :
  mmrLoop c blue red s = (s', Err e) -> e = TypeError.
Proof.
  unfold mmrLoop.
  destruct (teamLoop c 0 blue 0 blue s) as [smid [[] | e0]] eqn:Hfirst.
  - apply teamLoop_Err.
  - intros [= _ <-]. eapply teamLoop_Err; eauto.
Qed.

End Errors.

(** With such an evaluator the first part of [processMatch] can only fail in
    the organisation of the teams. *)
Lemma prepare_Err
    {PM : PerformanceModule} {RM : RatingModule} {TM : TeamModule} {OS : OpenSkill}
    (st : gmap string Rating) (md : list MatchDetail)
    (prev : gmap string (option MatchDetail)) (st' : gmap string Rating) (e : error) :
  evaluatesAll PM ->
  prepare st md prev = (st', Err e) -> e = MalformedMatchError.
Proof.
  intros Htotal. unfold prepare.
  destruct (organizeTeams md) as [[blue red] | e0] eqn:Hteams.
  - apply organizeTeams_inv in Hteams as (-> & -> & Hblue & _).
    assert (md <> []) as Hmd.
    { intros ->. now apply Hblue. }
    destruct (teamRatings st _) as [ratings1 blueRatings0].
    destruct (teamRatings ratings1 _) as [ratings2 redRatings0].
    destruct (collectPerformances_total md md ∅ Htotal Hmd) as (perfs & -> & _).
    discriminate.
  - intros [= _ <-]. unfold organizeTeams in Hteams.
    destruct (roster Blue md); [congruence |].
    destruct (roster Red md); congruence.
Qed.

(** C8.  Take an evaluator that signals an error only when it is given no
    comparison population.  Then the carry adjustment never ends with an
    error, and it is 0 when the exclusion of the subject leaves no teammate:
    nothing is evaluated then.  [processMatch] never ends with an
    [InsufficientDataError]; and when it returns, the [mmrDelta] of an
    established player whose roster holds no record of another player is
    the clamped, rounded product of the balance factor and the sum of the
    base change, the performance adjustment and a carry adjustment of 0. *)
Theorem C8_no_population_no_error
    {PM : PerformanceModule} {RM : RatingModule} {TM : TeamModule} {OS : OpenSkill} :
  evaluatesAll PM ->
  (forall playerMatch team performance isWinner,
     (exists carry,
        calculateCarryAdjustment playerMatch team performance isWinner = Ok carry)
     /\ (teammatesOf playerMatch team = [] ->
         calculateCarryAdjustment playerMatch team performance isWinner = Ok 0%Q))
  /\ (forall st md prev,
        (forall e, (processMatch st md prev).2 = Err e -> e <> InsufficientDataError)
        /\ (forall st' md',
              processMatch st md prev = (st', md', Ok tt) ->
              forall i m', md' !! i = Some m' ->
              isFirstMatchOf (prev !! steamID (player m')) = false ->
              exists p n performance base,
                prepare st md prev = (st', Ok p)
                /\ teamAt p (teamIndex m') !! n = Some i
                /\ (exists m1 performance0,
                      m1 ∈ md
                      /\ steamID (player m1) = steamID (player m')
                      /\ calculateIndividualPerformance m1 md = Ok performance0
                      /\ score performance = score performance0)
                /\ convertRatingChangeToMMR
                     (if (teamIndex m' =? 0)%nat
                      then blueRatings (context p) !! n
                      else redRatings (context p) !! n)
                     (newRatingAt (newRatings (context p)) (teamIndex m') n) = Ok base
                /\ (teammatesOf m' (deref md (teamAt p (teamIndex m'))) = [] ->
                    let won := isWinnerOf (winner (context p)) (teamIndex m') in
                    mmrDelta m'
                    = Some
                        (clampMMRDelta
                           (Math_round
                              ((base
                                + calculatePerformanceAdjustment performance won
                                    (length (deref md (teamAt p (teamIndex m'))))
                                + 0)
                               * calculateBalanceFactor (skillDifference (context p)) won
                                   (if (teamIndex m' =? 0)%nat
                                    then blueAvgSkill (context p)
                                    else redAvgSkill (context p))
                                   (if (teamIndex m' =? 0)%nat
                                    then redAvgSkill (context p)
                                    else blueAvgSkill (context p))))
                           won)))).
Proof.
  intros Htotal. split.
  - intros playerMatch team performance isWinner. split.
    + now apply calculateCarryAdjustment_total.
    + apply calculateCarryAdjustment_alone.
  - intros st md prev. split.
    + intros e. unfold processMatch.
      destruct (prepare st md prev) as [ratings [p | e0]] eqn:Hprep.
      * destruct (mmrLoop _ _ _ _) as [s r] eqn:Hloop. simpl.
        intros ->. apply mmrLoop_Err in Hloop; [| exact Htotal].
        now subst e.
      * simpl. intros [= <-].
        apply prepare_Err in Hprep; [| exact Htotal]. now subst e0.
    + intros st' md' Hrun i m' Hm' Hest.
      apply processMatch_outputs in Hrun as (p & Hprep & Hall).
      destruct (Hall i m' Hm')
        as (n & team & m1 & perf0 & perf & o
            & Hn & Hteam & Hin & Hid & Hm1 & Hscore & _ & Ho & _ & Hd).
      pose proof (prepare_inv _ _ _ _ _ Hprep) as (_ & _ & Hprev & _).
      rewrite <- Hprev in Hest.
      apply playerMMR_established in Ho
        as (perf' & base & carry & Hperf & Hbase & Hcarry & Hdelta & _);
        [| exact Hest].
      injection Hperf as <-.
      exists p, n, perf, base.
      split; [exact Hprep |]. split; [exact Hn |].
      split; [exists m1, perf0; auto |]. split; [exact Hbase |].
      intros Halone. cbv zeta.
      assert (teammatesOf m' team = []) as Hnone.
      { pose proof (teammatesOf_sameRecord m' _ _ Hteam) as Hmates.
        rewrite Halone in Hmates. now inversion Hmates. }
      rewrite (calculateCarryAdjustment_alone _ _ _ _ Hnone) in Hcarry.
      injection Hcarry as <-.
      rewrite Hd, Hdelta, (Forall2_length _ _ _ Hteam). reflexivity.
Qed.

(** The evaluator that signals [InsufficientDataError] exactly on the empty
    population never signals it inside the carry adjustment: two records of
    one player leave no teammate, and the adjustment is 0. *)
Lemma C8_no_population_no_error_witness :
  @calculateCarryAdjustment emptyAwarePerformance (record "a" Blue 1)
    [record "a" Blue 1; record "a" Blue 2] (mkPerformance 1 0) true = Ok 0%Q.
Proof.
  assert (evaluatesAll emptyAwarePerformance) as Htotal.
  { intros m [| x population] Hne; [congruence | simpl; eauto]. }
  apply (proj1 (@C8_no_population_no_error emptyAwarePerformance sampleRating
                  blueWins sampleOpenSkill Htotal)
           (record "a" Blue 1) [record "a" Blue 1; record "a" Blue 2]
           (mkPerformance 1 0) true).
  reflexivity.
Defined.

(** * Further properties of the calculator *)

(** ** The rating store: lookup, creation and seeding *)

(** X1.  [getOrCreatePlayerRating] never overwrites: a stored rating is
    returned as it is and the store is left alone; for an unseen player the
    initial rating of the match detail is stored and returned.  Either way
    the store afterwards holds the returned rating under the player's id,
    every other entry is as before, and a second call, with whatever match
    detail, changes nothing and returns the same rating. *)
Theorem X1_getOrCreate_never_overwrites {RM : RatingModule}
    (store : gmap string Rating) (id : string) (matchDetail : MatchDetail) :
  let store' := (getOrCreatePlayerRating store id matchDetail).1 in
  let r := (getOrCreatePlayerRating store id matchDetail).2 in
  store' !! id = Some r
  /\ (forall r0, store !! id = Some r0 -> r = r0 /\ store' = store)
  /\ (store !! id = None ->
      r = calculateInitialRating (calculateSkillProxy matchDetail))
  /\ (forall id', id' <> id -> store' !! id' = store !! id')
  /\ (forall other, getOrCreatePlayerRating store' id other = (store', r)).
Proof.
  unfold getOrCreatePlayerRating. destruct (store !! id) as [r0 |] eqn:E; simpl.
  - split; [exact E |]. split; [now intros ? [= <-] |].
    split; [discriminate |]. split; [reflexivity |].
    intros other. now rewrite E.
  - split; [apply lookup_insert_eq |]. split; [discriminate |].
    split; [reflexivity |]. split.
    + intros id' Hne. apply lookup_insert_ne. congruence.
    + intros other. now rewrite lookup_insert_eq.
Qed.

(** X2.  Seeding composes with lookup.  For the record [p] of a player that
    no later record of the same player follows in the seeded list,
    [getOrCreatePlayerRating] afterwards returns
    [rating(p.skillMu, p.skillSigma)] for every match detail it is given,
    and leaves the store as it is: a seeded player never gets an initial
    rating from a match. *)
Theorem X2_seeded_player_is_not_recreated {RM : RatingModule}
    (before after : list Player) (p : Player) (store : gmap string Rating) :
  steamID p ∉ map steamID after ->
  forall matchDetail,
    getOrCreatePlayerRating (ensurePlayerRatings (before ++ p :: after) store)
      (steamID p) matchDetail
    = (ensurePlayerRatings (before ++ p :: after) store,
       rating (skillMu p) (skillSigma p)).
Proof.
  intros Hlast matchDetail. unfold getOrCreatePlayerRating.
  now rewrite ensurePlayerRatings_lookup, lastSeed_last.
Qed.

(** ["a"] is seeded with (25, 8) and then with (26, 7): a match detail of
    ["a"] gets (26, 7) back. *)
Lemma X2_seeded_player_is_not_recreated_witness :
  @getOrCreatePlayerRating sampleRating
    (ensurePlayerRatings [mkPlayer "a" 25 8; mkPlayer "a" 26 7] seededStore)
    "a" (record "a" Blue 2)
  = (ensurePlayerRatings [mkPlayer "a" 25 8; mkPlayer "a" 26 7] seededStore,
     rating 26 7).
Proof.
  apply (@X2_seeded_player_is_not_recreated sampleRating
           [mkPlayer "a" 25 8] [] (mkPlayer "a" 26 7) seededStore).
  apply not_elem_of_nil.
Defined.

Lemma getOrCreatePlayerRating_stored {RM : RatingModule}
    (store : gmap string Rating) (id : string) (matchDetail : MatchDetail) :
  (getOrCreatePlayerRating store id matchDetail).1 !! id
  = Some (getOrCreatePlayerRating store id matchDetail).2.
Proof.
  unfold getOrCreatePlayerRating. destruct (store !! id) eqn:E; simpl.
  - exact E.
  - apply lookup_insert_eq.
Qed.

Lemma teamRatings_grows {RM : RatingModule} (team : list MatchDetail) :
  forall store id r,
    store !! id = Some r -> (teamRatings store team).1 !! id = Some r.
Proof.
  induction team as [| m team IH]; intros store id r Hr; simpl; [exact Hr |].
  unfold getOrCreatePlayerRating.
  destruct (store !! steamID (player m)) as [r0 |] eqn:E.
  - specialize (IH store id r Hr).
    destruct (teamRatings store team) as [ratings2 rs]. exact IH.
  - assert (<[steamID (player m) := calculateInitialRating (calculateSkillProxy m)]>
              store !! id = Some r) as Hr'.
    { rewrite lookup_insert_ne; [exact Hr | congruence]. }
    specialize (IH _ id r Hr').
    destruct (teamRatings _ team) as [ratings2 rs]. exact IH.
Qed.

(** X3.  The ratings [processMatch] collects for a roster are, place by
    place, the ratings the store holds for the roster's players once the
    roster has been gone through; ratings that were in the store before are
    untouched, and so is every entry of a player who is not in the roster. *)
Theorem X3_roster_ratings_are_the_stored_ones {RM : RatingModule}
    (team : list MatchDetail) (store : gmap string Rating) :
  let store' := (teamRatings store team).1 in
  let ratings := (teamRatings store team).2 in
  Forall2 (fun m r => store' !! steamID (player m) = Some r) team ratings
  /\ (forall id r, store !! id = Some r -> store' !! id = Some r)
  /\ (forall id, id ∉ map (fun m => steamID (player m)) team ->
        store' !! id = store !! id).
Proof.
  cbv zeta. split; [| split].
  - revert store. induction team as [| m team IH]; intros store; simpl.
    + constructor.
    + pose proof (getOrCreatePlayerRating_stored store (steamID (player m)) m)
        as Hstored.
      destruct (getOrCreatePlayerRating store (steamID (player m)) m)
        as [ratings1 r] eqn:Eget.
      simpl in Hstored. specialize (IH ratings1).
      pose proof (teamRatings_grows team ratings1 _ _ Hstored) as Hkept.
      destruct (teamRatings ratings1 team) as [ratings2 rs].
      simpl in *. constructor; assumption.
  - intros id r. apply teamRatings_grows.
  - revert store. induction team as [| m team IH]; intros store id Hid; simpl.
    + reflexivity.
    + simpl in Hid. apply not_elem_of_cons in Hid as [Hne Hid].
      unfold getOrCreatePlayerRating.
      destruct (store !! steamID (player m)) as [r0 |] eqn:E.
      * specialize (IH store id Hid).
        destruct (teamRatings store team) as [ratings2 rs]. exact IH.
      * specialize (IH (<[steamID (player m) :=
                            calculateInitialRating (calculateSkillProxy m)]> store)
                       id Hid).
        destruct (teamRatings _ team) as [ratings2 rs]. simpl in *.
        rewrite IH. apply lookup_insert_ne. congruence.
Qed.

(** ** The balance factor, once more *)

(** X5.  The two sides of a match get the same balance factor: the factor
    of a team that won against an opponent is the factor of that opponent,
    which lost against the team. *)
Theorem X5_balance_factor_same_for_both_sides (skillDifference0 : number)
    (isWinner : bool) (playerTeamSkill opponentTeamSkill : number) :
  calculateBalanceFactor skillDifference0 isWinner playerTeamSkill opponentTeamSkill
  = calculateBalanceFactor skillDifference0 (negb isWinner)
      opponentTeamSkill playerTeamSkill.
Proof.
  unfold calculateBalanceFactor.
  destruct skillDifference0 as [d |]; [| reflexivity].
  destruct (Qlt_bool 3 d); [| reflexivity].
  destruct isWinner; simpl;
    now rewrite ?orb_false_r, ?andb_true_r.
Qed.

(** X6.  The final clamp of the balance factor never acts: the factor is
    always strictly between 0.5 and 1.8.  Above a skill difference of 3 the
    two minima are decided: for an expected outcome [min(0.2, d/15)] is 0.2
    throughout, so that the factor is [0.8 - 0.2] whatever the difference;
    for an upset [min(0.4, d/10)] is [d/10] up to a difference of 4 and 0.4
    from there on, so that the factor is [1.3 + d/10], at least
    [1.3 + 0.3], and then [1.3 + 0.4]. *)
Theorem X6_balance_factor_values (skillDifference0 : number) (isWinner : bool)
    (playerTeamSkill opponentTeamSkill : number) :
  let factor :=
    calculateBalanceFactor skillDifference0 isWinner playerTeamSkill opponentTeamSkill in
  let isUpset :=
    (isWinner && nlt playerTeamSkill opponentTeamSkill)
    || (negb isWinner && nlt opponentTeamSkill playerTeamSkill) in
  (0.5 < factor < 1.8)%Q
  /\ (forall d, skillDifference0 = Num d -> (3 < d)%Q ->
        (isUpset = false ->
         (Math_min 0.2 (d / 15) == 0.2)%Q /\ (factor == 0.8 - 0.2)%Q)
        /\ (isUpset = true -> (d <= 4)%Q ->
            (Math_min 0.4 (d / 10) == d / 10)%Q
            /\ (factor == 1.3 + d / 10)%Q /\ (1.3 + 0.3 <= factor)%Q)
        /\ (isUpset = true -> (4 <= d)%Q ->
            (Math_min 0.4 (d / 10) == 0.4)%Q /\ (factor == 1.3 + 0.4)%Q)).
Proof.
  cbv zeta. unfold calculateBalanceFactor.
  destruct skillDifference0 as [d |];
    [| split; [split; reflexivity | discriminate]].
  compare_dec 3%Q d.
  - destruct ((isWinner && nlt playerTeamSkill opponentTeamSkill)
              || (negb isWinner && nlt opponentTeamSkill playerTeamSkill)).
    + split; [minmax; lraq |].
      intros d' [= <-] _. split; [discriminate |].
      split; intros _ Hd; repeat split; minmax; lraq.
    + split; [minmax; lraq |].
      intros d' [= <-] _. split; [| split; discriminate].
      intros _. split; minmax; lraq.
  - split; [split; reflexivity |]. intros d' [= <-] Hd. lra.
Qed.

(** The favoured team wins by a difference of 5, as in the example of the
    balance factor above: the factor is [0.8 - 0.2]. *)
Lemma X6_balance_factor_values_witness :
  (calculateBalanceFactor (Num 5) true (Num 25) (Num 20) == 0.8 - 0.2)%Q.
Proof.
  apply (X6_balance_factor_values (Num 5) true (Num 25) (Num 20)) with (d := 5%Q);
    reflexivity.
Defined.

(** ** The clamp, once more *)

(** X7.  [clampMMRDelta] leaves a delta of the right range alone, is
    idempotent and monotone, and forces the sign: a winner whose computed
    delta is 2 or less (negative, say) gets exactly +2, a loser whose
    computed delta is -2 or more gets exactly -2. *)
Theorem X7_clamp_shape (isWinner : bool) :
  (forall d,
     (if isWinner then (2 <= d <= 40)%Q else (-40 <= d <= -2)%Q) ->
     (clampMMRDelta d isWinner == d)%Q)
  /\ (forall d,
        (clampMMRDelta (clampMMRDelta d isWinner) isWinner
         == clampMMRDelta d isWinner)%Q)
  /\ (forall d1 d2, (d1 <= d2)%Q ->
        (clampMMRDelta d1 isWinner <= clampMMRDelta d2 isWinner)%Q)
  /\ (forall d, isWinner = true -> (d <= 2)%Q -> (clampMMRDelta d isWinner == 2)%Q)
  /\ (forall d, isWinner = false -> (-2 <= d)%Q -> (clampMMRDelta d isWinner == -2)%Q).
Proof.
  unfold clampMMRDelta. destruct isWinner.
  - split; [intros d Hd; minmax; lra |].
    split; [intros d; minmax; lra |].
    split; [intros d1 d2 Hle; minmax; lra |].
    split; [intros d _ Hd; minmax; lra | discriminate].
  - split; [intros d Hd; minmax; lra |].
    split; [intros d; minmax; lra |].
    split; [intros d1 d2 Hle; minmax; lra |].
    split; [discriminate | intros d _ Hd; minmax; lra].
Qed.

(** A winner whose computed delta is -7 gains 2; a loser whose computed
    delta is +12 loses 2. *)
Lemma X7_clamp_shape_witness :
  (clampMMRDelta (-7) true == 2)%Q /\ (clampMMRDelta 12 false == -2)%Q.
Proof.
  split.
  - apply (X7_clamp_shape true); [reflexivity | discriminate].
  - apply (X7_clamp_shape false); [reflexivity | discriminate].
Defined.

(** ** The range of the carry adjustment *)

Lemma round_between (a b : Z) (x : Q) :
  (inject_Z a - (1 # 2) <= x)%Q -> (x < inject_Z b + (1 # 2))%Q ->
  (a <= Qfloor (x + (1 # 2)) <= b)%Z.
Proof.
  intros Hlo Hhi. split.
  - rewrite <- (Qfloor_Z a). apply Qfloor_resp_le. lra.
  - pose proof (Qfloor_le (x + (1 # 2))) as Hfloor.
    assert (inject_Z (Qfloor (x + (1 # 2))) < inject_Z (b + 1))%Q as Hlt.
    { rewrite inject_Z_plus. change (inject_Z 1) with 1%Q. lra. }
    rewrite <- Zlt_Qlt in Hlt. lia.
Qed.

Lemma carryFromScores_range (perf : PlayerPerformance)
    (perfs : list PlayerPerformance) (w : bool) :
  exists z : Z,
    carryFromScores perf perfs w = inject_Z z
    /\ (z = 0
        \/ (w = false /\ (5 <= z <= 18 \/ -10 <= z <= -2))
        \/ (w = true /\ (2 <= z <= 8 \/ -12 <= z <= -3)))%Z.
Proof.
  unfold carryFromScores.
  destruct (nsub _ _) as [d |]; [| exists 0%Z; split; [reflexivity | now left]].
  compare_dec (Math_abs d) 0.4%Q; [exists 0%Z; split; [reflexivity | now left] |].
  exists (Qfloor (carryQuadrant d w + (1 # 2))). split; [reflexivity |].
  unfold carryQuadrant. compare_dec 0.4%Q d.
  - right. destruct w; simpl; [right | left]; (split; [reflexivity |]); left;
      apply round_between; minmax;
      change (inject_Z 2) with 2%Q; change (inject_Z 8) with 8%Q;
      change (inject_Z 5) with 5%Q; change (inject_Z 18) with 18%Q; lra.
  - compare_dec d (-0.4)%Q.
    + right. destruct w; simpl; [right | left]; (split; [reflexivity |]); right;
        apply round_between; minmax;
        change (inject_Z (-12)) with (-12)%Q; change (inject_Z (-3)) with (-3)%Q;
        change (inject_Z (-10)) with (-10)%Q; change (inject_Z (-2)) with (-2)%Q;
        lra.
    + left. reflexivity.
Qed.

(** X8.  Whenever the carry adjustment is computed it is an integer, and
    either 0 or a value of its quadrant: between 5 and 18 or between -10 and
    -2 for a player whose team lost, between 2 and 8 or between -12 and -3
    for a player whose team won.  An adjustment of 1 or -1 never occurs. *)
Theorem X8_carry_adjustment_range {PM : PerformanceModule}
    (playerMatch : MatchDetail) (team : list MatchDetail)
    (playerPerformance : PlayerPerformance) (isWinner : bool) (r : Q) :
  calculateCarryAdjustment playerMatch team playerPerformance isWinner = Ok r ->
  exists z : Z,
    r = inject_Z z
    /\ (z = 0
        \/ (isWinner = false /\ (5 <= z <= 18 \/ -10 <= z <= -2))
        \/ (isWinner = true /\ (2 <= z <= 8 \/ -12 <= z <= -3)))%Z.
Proof.
  unfold calculateCarryAdjustment.
  destruct (length team <? 2)%nat.
  - intros [= <-]. exists 0%Z. split; [reflexivity | now left].
  - destruct (mapM _ _) as [perfs |]; simpl; [| discriminate].
    intros [= <-]. apply carryFromScores_range.
Qed.

(** The score of 2 among four scores of 1 on the losing side: the
    adjustment, 12, is an integer between 5 and 18. *)
Lemma X8_carry_adjustment_range_witness :
  exists z : Z,
    (12 : Q) = inject_Z z
    /\ (z = 0
        \/ (false = false /\ (5 <= z <= 18 \/ -10 <= z <= -2))
        \/ (false = true /\ (2 <= z <= 8 \/ -12 <= z <= -3)))%Z.
Proof.
  apply (@X8_carry_adjustment_range statsPerformance (record "p" Blue 2) teamOfFive
           (mkPerformance 2 0) false 12%Q).
  reflexivity.
Defined.

(** ** The base change, once more *)

(** X9.  [convertRatingChangeToMMR] throws a [TypeError], and nothing else,
    exactly when one of the two ratings is undefined.  Otherwise the base
    change is at least five times the change of [mu] (the sigma term only
    adds), so it is not negative when [mu] did not fall, and it is 0 for a
    rating that did not change. *)
Theorem X9_base_change_bounds (oldRating newRating : option Rating) :
  match convertRatingChangeToMMR oldRating newRating with
  | Ok base =>
      exists o n,
        oldRating = Some o /\ newRating = Some n
        /\ ((mu n - mu o) * 5 <= base)%Q
        /\ ((mu o <= mu n)%Q -> (0 <= base)%Q)
        /\ (o = n -> (base == 0)%Q)
  | Err e => e = TypeError /\ (oldRating = None \/ newRating = None)
  end.
Proof.
  unfold convertRatingChangeToMMR.
  destruct newRating as [n |], oldRating as [o |]; try (split; auto; fail).
  exists o, n. split; [reflexivity |]. split; [reflexivity |].
  split; [minmax; lra |]. split; [intros; minmax; lra |].
  intros ->. minmax. lra.
Qed.

(** ** What a call of processMatch does to the store and to the records *)

Lemma deref_elem (md : list MatchDetail) (team : list nat) (m : MatchDetail) :
  m ∈ deref md team -> m ∈ md.
Proof.
  unfold deref. induction team as [| i team IH]; simpl.
  - intros H. now apply elem_of_nil in H.
  - destruct (md !! i) as [mi |] eqn:E; simpl; [| exact IH].
    intros H. apply elem_of_cons in H as [-> | H]; [| now apply IH].
    apply list_elem_of_lookup. eauto.
Qed.

Lemma deref_member (md : list MatchDetail) (team : list nat) (i : nat)
    (m : MatchDetail) :
  i ∈ team -> md !! i = Some m -> m ∈ deref md team.
Proof.
  unfold deref. induction team as [| j team IH]; intros Hi Hm.
  - now apply elem_of_nil in Hi.
  - simpl. apply elem_of_cons in Hi as [<- | Hi].
    + rewrite Hm. apply list_elem_of_here.
    + destruct (md !! j); simpl; [apply list_elem_of_further |]; now apply IH.
Qed.

Lemma teamRatings_stored {RM : RatingModule} (team : list MatchDetail) :
  forall store,
    Forall2 (fun m r => (teamRatings store team).1 !! steamID (player m) = Some r)
      team (teamRatings store team).2.
Proof.
  induction team as [| m team IH]; intros store; simpl.
  - constructor.
  - pose proof (getOrCreatePlayerRating_stored store (steamID (player m)) m)
      as Hstored.
    destruct (getOrCreatePlayerRating store (steamID (player m)) m)
      as [ratings1 r] eqn:Eget.
    simpl in Hstored. specialize (IH ratings1).
    pose proof (teamRatings_grows team ratings1 _ _ Hstored) as Hkept.
    destruct (teamRatings ratings1 team) as [ratings2 rs].
    simpl in *. constructor; assumption.
Qed.

Lemma teamRatings_frame {RM : RatingModule} (team : list MatchDetail) :
  forall store id,
    (forall m, m ∈ team -> steamID (player m) <> id) ->
    (teamRatings store team).1 !! id = store !! id.
Proof.
  induction team as [| m team IH]; intros store id Hid; simpl; [reflexivity |].
  assert (steamID (player m) <> id) as Hne by (apply Hid, list_elem_of_here).
  assert (forall m', m' ∈ team -> steamID (player m') <> id) as Hrest.
  { intros m' Hm'. apply Hid. now apply list_elem_of_further. }
  unfold getOrCreatePlayerRating.
  destruct (store !! steamID (player m)) as [r0 |] eqn:E.
  - specialize (IH store id Hrest).
    destruct (teamRatings store team) as [ratings2 rs]. exact IH.
  - specialize (IH (<[steamID (player m) :=
                        calculateInitialRating (calculateSkillProxy m)]> store)
                   id Hrest).
    destruct (teamRatings _ team) as [ratings2 rs]. simpl in *.
    rewrite IH. now apply lookup_insert_ne.
Qed.

Lemma teamRatings_member {RM : RatingModule} (team : list MatchDetail)
    (store : gmap string Rating) (m : MatchDetail) :
  m ∈ team -> is_Some ((teamRatings store team).1 !! steamID (player m)).
Proof.
  intros Hm. apply list_elem_of_lookup in Hm as [n Hn].
  pose proof (teamRatings_stored team store) as Hall.
  destruct (Forall2_lookup_l _ _ _ _ _ Hall Hn) as (r & _ & Hr). eauto.
Qed.

Lemma cacheTeam_frame (ratings : list (list Rating)) (teamIdx : nat)
    (team : list MatchDetail) (id : string) : forall idx store,
  (forall m, m ∈ team -> steamID (player m) <> id) ->
  cacheTeam ratings teamIdx idx team store !! id = store !! id.
Proof.
  induction team as [| m team IH]; intros idx store Hid; simpl; [reflexivity |].
  rewrite IH.
  - destruct (newRatingAt ratings teamIdx idx); [| reflexivity].
    apply lookup_insert_ne. apply Hid, list_elem_of_here.
  - intros m' Hm'. apply Hid. now apply list_elem_of_further.
Qed.

Lemma cacheTeam_present (ratings : list (list Rating)) (teamIdx : nat)
    (team : list MatchDetail) (id : string) : forall idx store,
  is_Some (store !! id) ->
  is_Some (cacheTeam ratings teamIdx idx team store !! id).
Proof.
  induction team as [| m team IH]; intros idx store Hid; simpl; [exact Hid |].
  apply IH. destruct (newRatingAt ratings teamIdx idx); [| exact Hid].
  rewrite lookup_insert_is_Some.
  destruct (decide (steamID (player m) = id)); auto.
Qed.

(** X10.  Whatever the outcome of [processMatch], the store entries of
    players who have no record in the match are as they were.  And once the
    two rosters are formed, every player with a record in the match has a
    rating in the store, also when the call goes on to throw. *)
Theorem X10_store_covers_the_match
    {PM : PerformanceModule} {RM : RatingModule} {TM : TeamModule} {OS : OpenSkill}
    (st : gmap string Rating) (md : list MatchDetail)
    (prev : gmap string (option MatchDetail)) :
  let st' := (processMatch st md prev).1.1 in
  (forall id, (forall m, m ∈ md -> steamID (player m) <> id) ->
     st' !! id = st !! id)
  /\ (roster Blue md <> [] -> roster Red md <> [] ->
      forall m, m ∈ md -> is_Some (st' !! steamID (player m))).
Proof.
  cbv zeta.
  assert ((processMatch st md prev).1.1 = (prepare st md prev).1) as ->.
  { unfold processMatch. destruct (prepare st md prev) as [ratings [p |]];
      [| reflexivity].
    now destruct (mmrLoop _ _ _ _) as [s r]. }
  unfold prepare, organizeTeams. split.
  - intros id Hid.
    assert (forall team m, m ∈ deref md team -> steamID (player m) <> id) as Hteam.
    { intros team m Hm. apply Hid. eapply deref_elem; eauto. }
    destruct (roster Blue md) as [| b0 bs] eqn:Eblue; [reflexivity |].
    destruct (roster Red md) as [| r0 rs] eqn:Ered; [reflexivity |].
    pose proof (teamRatings_frame (deref md (b0 :: bs)) st id (Hteam _)) as H1.
    destruct (teamRatings st (deref md (b0 :: bs))) as [ratings1 bR].
    pose proof (teamRatings_frame (deref md (r0 :: rs)) ratings1 id (Hteam _)) as H2.
    destruct (teamRatings ratings1 (deref md (r0 :: rs))) as [ratings2 rR].
    simpl in H1, H2.
    destruct (collectPerformances md md ∅); simpl.
    + rewrite (cacheTeam_frame _ _ _ _ _ _ (Hteam (r0 :: rs))).
      rewrite (cacheTeam_frame _ _ _ _ _ _ (Hteam (b0 :: bs))). congruence.
    + congruence.
  - intros Hblue Hred m Hm.
    assert (is_Some ((teamRatings
                        (teamRatings st (deref md (roster Blue md))).1
                        (deref md (roster Red md))).1 !! steamID (player m)))
      as Hseeded.
    { apply list_elem_of_lookup in Hm as [i Hi].
      pose proof (hasColor_teamIndex m) as Hcol.
      destruct (teamIndex m =? 0)%nat.
      - destruct (teamRatings_member (deref md (roster Blue md)) st m) as [r Hr].
        { eapply deref_member; [apply roster_elem |]; eauto. }
        exists r. now apply teamRatings_grows.
      - apply teamRatings_member.
        eapply deref_member; [apply roster_elem |]; eauto. }
    destruct (roster Blue md) as [| b0 bs] eqn:Eblue; [congruence |].
    destruct (roster Red md) as [| r0 rs] eqn:Ered; [congruence |].
    destruct (teamRatings st (deref md (b0 :: bs))) as [ratings1 bR].
    change ((ratings1, bR).1) with ratings1 in Hseeded.
    destruct (teamRatings ratings1 (deref md (r0 :: rs))) as [ratings2 rR].
    change ((ratings2, rR).1) with ratings2 in Hseeded.
    destruct (collectPerformances md md ∅); simpl; [| exact Hseeded].
    now apply cacheTeam_present, cacheTeam_present.
Qed.

(** In the run that threw at ["b"], all four players have a rating and an
    outsider has none. *)
Lemma X10_store_covers_the_match_witness :
  is_Some (shortRun.1.1 !! "b") /\ is_Some (shortRun.1.1 !! "d")
  /\ shortRun.1.1 !! "z" = None.
Proof.
  pose proof (@X10_store_covers_the_match statsPerformance sampleRating blueWins
                shortOpenSkill ∅ sampleMatch establishedPrevious)
    as [Hframe Hcover].
  split; [| split].
  - apply (Hcover ltac:(discriminate) ltac:(discriminate) (record "b" Blue 0.5)).
    apply list_elem_of_further, list_elem_of_here.
  - apply (Hcover ltac:(discriminate) ltac:(discriminate) (record "d" Red 0.5)).
    do 3 apply list_elem_of_further. apply list_elem_of_here.
  - unfold shortRun. rewrite (Hframe "z"); [reflexivity |].
    intros m Hm. repeat (apply elem_of_cons in Hm as [-> | Hm]; [discriminate |]).
    now apply elem_of_nil in Hm.
Defined.

Lemma mmrLoop_evolves {PM : PerformanceModule} {RM : RatingModule}
    (c : MatchContext) (blue red : list nat) (s s' : LoopState) (r : result unit) :
  mmrLoop c blue red s = (s', r) -> evolves c s s'.
Proof.
  unfold mmrLoop.
  destruct (teamLoop c 0 blue 0 blue s) as [smid [[] | e]] eqn:Hfirst.
  - intros Hsecond. eapply evolves_trans; eapply teamLoop_evolves; eauto.
  - intros [= <- _]. eapply teamLoop_evolves; eauto.
Qed.

(** X12.  Whatever the outcome of [processMatch], the records afterwards are
    the records of the match, as many and in the same order, each with its
    player, team and statistics unchanged: only the two MMR fields are ever
    written. *)
Theorem X12_records_keep_their_identity
    {PM : PerformanceModule} {RM : RatingModule} {TM : TeamModule} {OS : OpenSkill}
    (st : gmap string Rating) (md : list MatchDetail)
    (prev : gmap string (option MatchDetail)) :
  let md' := (processMatch st md prev).1.2 in
  length md' = length md
  /\ forall j m, md !! j = Some m ->
       exists m', md' !! j = Some m' /\ sameRecord m m'.
Proof.
  cbv zeta. unfold processMatch.
  destruct (prepare st md prev) as [ratings [p |]]; simpl.
  - destruct (mmrLoop _ _ _ _) as [s r] eqn:Hloop. simpl.
    apply mmrLoop_evolves in Hloop as (Hlen & Hrec & _). auto.
  - split; [reflexivity |]. intros j m Hm. exists m.
    split; [exact Hm | apply sameRecord_refl].
Qed.

(** ** The write-back of the oracle's ratings *)

Lemma processMatch_store
    {PM : PerformanceModule} {RM : RatingModule} {TM : TeamModule} {OS : OpenSkill}
    (st : gmap string Rating) (md : list MatchDetail)
    (prev : gmap string (option MatchDetail)) :
  (processMatch st md prev).1.1 = (prepare st md prev).1.
Proof.
  unfold processMatch. destruct (prepare st md prev) as [ratings [p |]];
    [| reflexivity].
  now destruct (mmrLoop _ _ _ _) as [s r].
Qed.

Lemma prepare_store
    {PM : PerformanceModule} {RM : RatingModule} {TM : TeamModule} {OS : OpenSkill}
    (st : gmap string Rating) (md : list MatchDetail)
    (prev : gmap string (option MatchDetail)) (st' : gmap string Rating)
    (p : Prepared) :
  prepare st md prev = (st', Ok p) ->
  let blue := deref md (roster Blue md) in
  let red := deref md (roster Red md) in
  blueRatings (context p) = (teamRatings st blue).2
  /\ redRatings (context p) = (teamRatings (teamRatings st blue).1 red).2
  /\ st' = cacheTeam (newRatings (context p)) 1 0 red
             (cacheTeam (newRatings (context p)) 0 0 blue
                (teamRatings (teamRatings st blue).1 red).1).
Proof.
  unfold prepare.
  destruct (organizeTeams md) as [[blue red] |] eqn:Hteams; [| discriminate].
  apply organizeTeams_inv in Hteams as (-> & -> & _ & _).
  cbv zeta.
  destruct (teamRatings st _) as [ratings1 blueRatings0]. cbn [fst snd].
  destruct (teamRatings ratings1 _) as [ratings2 redRatings0]. cbn [fst snd].
  destruct (collectPerformances md md ∅) as [perfs |]; [| discriminate].
  intros [= <- <-]. now repeat split.
Qed.

Lemma deref_lookup (md : list MatchDetail) (team : list nat) :
  (forall i, i ∈ team -> (i < length md)%nat) ->
  forall n, deref md team !! n
            = match team !! n with
              | Some i => md !! i
              | None => None
              end.
Proof.
  unfold deref. induction team as [| i team IH]; intros Hvalid n.
  - reflexivity.
  - destruct (lookup_lt_is_Some_2 md i) as [m Hm];
      [apply Hvalid, list_elem_of_here |].
    simpl. rewrite Hm. destruct n as [| n]; simpl; [now rewrite Hm |].
    apply IH. intros j Hj. apply Hvalid. now apply list_elem_of_further.
Qed.

Lemma deref_roster_lookup (col : TeamColor) (md : list MatchDetail) (n i : nat)
    (m : MatchDetail) :
  roster col md !! n = Some i -> md !! i = Some m ->
  deref md (roster col md) !! n = Some m.
Proof.
  intros Hn Hm. rewrite deref_lookup by apply roster_valid. now rewrite Hn.
Qed.

Lemma deref_roster_inv (col : TeamColor) (md : list MatchDetail) (n : nat)
    (m : MatchDetail) :
  deref md (roster col md) !! n = Some m ->
  exists i, roster col md !! n = Some i /\ md !! i = Some m
            /\ hasColor col m = true.
Proof.
  rewrite deref_lookup by apply roster_valid.
  destruct (roster col md !! n) as [i |] eqn:Hn; [| discriminate].
  intros Hm. exists i. split; [reflexivity |]. split; [exact Hm |].
  assert (i ∈ roster col md) as Hi by (apply list_elem_of_lookup; eauto).
  apply roster_elem in Hi as (m0 & Hm0 & Hcol). congruence.
Qed.

Lemma unique_id (md : list MatchDetail) (i j : nat) (m m' : MatchDetail) :
  NoDup (map (fun m => steamID (player m)) md) ->
  md !! i = Some m -> md !! j = Some m' ->
  steamID (player m) = steamID (player m') -> i = j.
Proof.
  intros Hnodup Hi Hj Hid.
  apply (NoDup_lookup _ i j (steamID (player m)) Hnodup).
  - change (map ?f md) with (f <$> md). now rewrite list_lookup_fmap, Hi.
  - change (map ?f md) with (f <$> md). rewrite list_lookup_fmap, Hj. simpl.
    now rewrite Hid.
Qed.

Lemma roster_ids_NoDup (col : TeamColor) (md : list MatchDetail) :
  NoDup (map (fun m => steamID (player m)) md) ->
  NoDup (map (fun m => steamID (player m)) (deref md (roster col md))).
Proof.
  intros Hnodup. apply NoDup_alt. intros a b id Ha Hb.
  change (map ?f ?l) with (f <$> l) in Ha, Hb.
  rewrite list_lookup_fmap in Ha, Hb.
  destruct (deref md (roster col md) !! a) as [ma |] eqn:Ea; [| discriminate].
  destruct (deref md (roster col md) !! b) as [mb |] eqn:Eb; [| discriminate].
  simpl in Ha, Hb. injection Ha as Ha. injection Hb as Hb.
  apply deref_roster_inv in Ea as (ia & Hia & Hma & _).
  apply deref_roster_inv in Eb as (ib & Hib & Hmb & _).
  assert (ia = ib) as <- by (eapply unique_id; eauto; congruence).
  assert (NoDup (roster col md)) as Hroster.
  { unfold roster. apply NoDup_ListNoDup, List.NoDup_filter, seq_NoDup. }
  eapply NoDup_lookup; eauto.
Qed.

Lemma roster_ids_disjoint (md : list MatchDetail) (m m' : MatchDetail) :
  NoDup (map (fun m => steamID (player m)) md) ->
  m ∈ deref md (roster Blue md) -> m' ∈ deref md (roster Red md) ->
  steamID (player m) <> steamID (player m').
Proof.
  intros Hnodup Hm Hm' Hid.
  apply list_elem_of_lookup in Hm as [a Ha].
  apply list_elem_of_lookup in Hm' as [b Hb].
  apply deref_roster_inv in Ha as (i & _ & Hi & Hblue).
  apply deref_roster_inv in Hb as (j & _ & Hj & Hred).
  assert (i = j) as <- by (eapply unique_id; eauto).
  assert (m = m') as <- by congruence.
  eapply hasColor_exclusive; eauto.
Qed.

Lemma cacheTeam_lookup_unique (ratings : list (list Rating)) (teamIdx : nat)
    (team : list MatchDetail) :
  NoDup (map (fun m => steamID (player m)) team) ->
  forall idx store n m,
    team !! n = Some m ->
    cacheTeam ratings teamIdx idx team store !! steamID (player m)
    = match newRatingAt ratings teamIdx (idx + n) with
      | Some r => Some r
      | None => store !! steamID (player m)
      end.
Proof.
  induction team as [| m0 team IH]; intros Hnodup idx store n m Hn.
  - destruct n; discriminate.
  - simpl in Hnodup. apply NoDup_cons in Hnodup as [Hfresh Hnodup].
    destruct n as [| n]; simpl in Hn |- *.
    + injection Hn as ->. rewrite Nat.add_0_r. rewrite cacheTeam_frame.
      * destruct (newRatingAt ratings teamIdx idx); [| reflexivity].
        apply lookup_insert_eq.
      * intros m' Hm' Hid. apply Hfresh.
        change (map ?f ?l) with (f <$> l). apply list_elem_of_fmap.
        exists m'. split; [now symmetry | exact Hm'].
    + rewrite (IH Hnodup (S idx) _ n m Hn).
      replace (S idx + n)%nat with (idx + S n)%nat by lia.
      destruct (newRatingAt ratings teamIdx (idx + S n)); [reflexivity |].
      destruct (newRatingAt ratings teamIdx idx); [| reflexivity].
      apply lookup_insert_ne. intros Hid. apply Hfresh.
      change (map ?f ?l) with (f <$> l). apply list_elem_of_fmap.
      exists m. split; [now symmetry |]. apply list_elem_of_lookup. eauto.
Qed.

(** X11.  In a match whose players are all different, once the first part
    of [processMatch] is through, the store holds for every player the
    rating the oracle returned for the player's place in the roster, and
    where the oracle returned none, the rating the player had when the
    oracle was called. *)
Theorem X11_write_back_by_place
    {PM : PerformanceModule} {RM : RatingModule} {TM : TeamModule} {OS : OpenSkill}
    (st : gmap string Rating) (md : list MatchDetail)
    (prev : gmap string (option MatchDetail)) (st' : gmap string Rating)
    (p : Prepared) :
  prepare st md prev = (st', Ok p) ->
  NoDup (map (fun m => steamID (player m)) md) ->
  forall teamIdx n i m,
    (teamIdx = 0 \/ teamIdx = 1)%nat ->
    teamAt p teamIdx !! n = Some i -> md !! i = Some m ->
    (processMatch st md prev).1.1 !! steamID (player m)
    = match newRatingAt (newRatings (context p)) teamIdx n with
      | Some newRating => Some newRating
      | None =>
          (if (teamIdx =? 0)%nat
           then blueRatings (context p) else redRatings (context p)) !! n
      end.
Proof.
  intros Hprep Hnodup teamIdx n i m Hidx Hn Hm.
  rewrite processMatch_store, Hprep. simpl.
  pose proof (prepare_inv _ _ _ _ _ Hprep) as (Hblue & Hred & _).
  pose proof (prepare_store _ _ _ _ _ Hprep) as (HbR & HrR & ->).
  set (blue := deref md (roster Blue md)) in *.
  set (red := deref md (roster Red md)) in *.
  pose proof (teamRatings_stored blue st) as Sblue.
  pose proof (teamRatings_stored red (teamRatings st blue).1) as Sred.
  rewrite <- HbR in Sblue. rewrite <- HrR in Sred.
  unfold teamAt in Hn. destruct Hidx as [-> | ->]; simpl in Hn |- *.
  - rewrite Hblue in Hn.
    pose proof (deref_roster_lookup Blue md n i m Hn Hm) as Hplace.
    fold blue in Hplace.
    assert (forall m', m' ∈ red -> steamID (player m') <> steamID (player m))
      as Hother.
    { intros m' Hm' Hid.
      apply (roster_ids_disjoint md m m' Hnodup);
        [apply list_elem_of_lookup; eauto | exact Hm' | now symmetry]. }
    rewrite (cacheTeam_frame _ _ _ _ _ _ Hother).
    rewrite (cacheTeam_lookup_unique _ _ blue (roster_ids_NoDup Blue md Hnodup)
               0 _ n m Hplace).
    simpl. destruct (newRatingAt _ 0 n); [reflexivity |].
    destruct (Forall2_lookup_l _ _ _ _ _ Sblue Hplace) as (r & Hr & Hstored).
    rewrite Hr. now apply teamRatings_grows.
  - rewrite Hred in Hn.
    pose proof (deref_roster_lookup Red md n i m Hn Hm) as Hplace.
    fold red in Hplace.
    rewrite (cacheTeam_lookup_unique _ _ red (roster_ids_NoDup Red md Hnodup)
               0 _ n m Hplace).
    simpl. destruct (newRatingAt _ 1 n); [reflexivity |].
    assert (forall m', m' ∈ blue -> steamID (player m') <> steamID (player m))
      as Hother.
    { intros m' Hm' Hid.
      apply (roster_ids_disjoint md m' m Hnodup);
        [exact Hm' | apply list_elem_of_lookup; eauto | exact Hid]. }
    rewrite (cacheTeam_frame _ _ _ _ _ _ Hother).
    destruct (Forall2_lookup_l _ _ _ _ _ Sred Hplace) as (r & Hr & Hstored).
    now rewrite Hr.
Qed.

(** With the oracle that forgets ["b"]: the store keeps for ["b"] the
    initial rating it had when the oracle was called. *)
Lemma X11_write_back_by_place_witness :
  shortRun.1.1 !! "b"
  = Some (@calculateInitialRating sampleRating
            (@calculateSkillProxy sampleRating (record "b" Blue 0.5))).
Proof.
  assert (exists st' p,
            @prepare statsPerformance sampleRating blueWins shortOpenSkill
              ∅ sampleMatch establishedPrevious = (st', Ok p))
    as (st' & p & Hprep) by (do 2 eexists; vm_compute; reflexivity).
  pose proof (prepare_inv _ _ _ _ _ Hprep) as (Hblue & _).
  pose proof Hprep as Hvalue. vm_compute in Hvalue.
  injection Hvalue as _ Hvalue.
  assert (teamAt p 0 !! 1%nat = Some 1%nat) as Hplace.
  { unfold teamAt. simpl. rewrite Hblue. reflexivity. }
  assert (NoDup (map (fun m => steamID (player m)) sampleMatch)) as Hnodup.
  { apply (bool_decide_unpack _). vm_compute. exact I. }
  etransitivity.
  - exact (@X11_write_back_by_place statsPerformance sampleRating blueWins
             shortOpenSkill ∅ sampleMatch establishedPrevious st' p Hprep Hnodup
             0%nat 1%nat 1%nat (record "b" Blue 0.5)
             (or_introl eq_refl) Hplace eq_refl).
  - rewrite <- Hvalue. vm_compute. reflexivity.
Defined.

(** ** A player the caller knows no previous total of *)

(** X13.  Only [null] marks a first match.  A player whose id is missing
    from [previousMatchDetails], or whose previous record has no
    [mmrAfterMatch], is converted as an established player starting from 0:
    on the winning side the total is the delta, between 2 and 40; otherwise
    the delta is negative and the total stays 0. *)
Theorem X13_unknown_previous_counts_from_zero
    {PM : PerformanceModule} {RM : RatingModule} {TM : TeamModule} {OS : OpenSkill}
    (st : gmap string Rating) (md : list MatchDetail)
    (prev : gmap string (option MatchDetail))
    (st' : gmap string Rating) (md' : list MatchDetail) :
  processMatch st md prev = (st', md', Ok tt) ->
  forall i m', md' !! i = Some m' ->
    (prev !! steamID (player m') = None
     \/ exists previous,
          prev !! steamID (player m') = Some (Some previous)
          /\ mmrAfterMatch previous = None) ->
    exists a d,
      mmrAfterMatch m' = Some a /\ mmrDelta m' = Some d
      /\ (let won :=
            isWinnerOf
              (determineWinner (deref md (roster Blue md)) (deref md (roster Red md)))
              (teamIndex m') in
          (won = true -> (a == d)%Q /\ (2 <= d <= 40)%Q)
          /\ (won = false -> (a == 0)%Q /\ (-40 <= d <= -2)%Q)).
Proof.
  intros Hrun i m' Hm' Hunknown.
  apply processMatch_written in Hrun as (p & Hprep & Hall).
  destruct (Hall i m' Hm') as (n & s1 & m & o & _ & _ & _ & _ & Ho & ->).
  apply prepare_inv in Hprep as (_ & _ & Hprev & Hwin & _).
  change (teamIndex (setMMR (finalMMR o) (finalDelta o) m)) with (teamIndex m) in *.
  change (steamID (player (setMMR (finalMMR o) (finalDelta o) m)))
    with (steamID (player m)) in *.
  rewrite <- Hprev in Hunknown.
  assert (isFirstMatchOf (previousMatchDetails (context p) !! steamID (player m))
          = false
          /\ previousMMROf (previousMatchDetails (context p) !! steamID (player m))
             = 0%Q) as [Hest Hzero].
  { destruct Hunknown as [-> | (previous & -> & Hnone)]; [now split |].
    simpl. now rewrite Hnone. }
  apply playerMMR_established in Ho
    as (perf & base & carry & _ & _ & _ & Hd & Ha & _); [| exact Hest].
  rewrite Hzero in Ha.
  exists (finalMMR o), (finalDelta o).
  split; [reflexivity |]. split; [reflexivity |].
  rewrite <- Hwin, Ha, Hd.
  destruct (isWinnerOf (winner (context p)) (teamIndex m)).
  - match goal with
    | |- context [clampMMRDelta ?x true] =>
        pose proof (clampMMRDelta_winner x) as Hb
    end.
    split; [| discriminate]. intros _. split; [| exact Hb]. minmax. lra.
  - match goal with
    | |- context [clampMMRDelta ?x false] =>
        pose proof (clampMMRDelta_loser x) as Hb
    end.
    split; [discriminate |]. intros _. split; [| exact Hb]. minmax. lra.
Qed.

(** In the sample match ["b"] is missing from the previous details and on
    the winning blue team: it ends with total and delta 2. *)
Lemma X13_unknown_previous_counts_from_zero_witness :
  exists m' a d,
    sampleOutput !! 1%nat = Some m'
    /\ mmrAfterMatch m' = Some a /\ mmrDelta m' = Some d
    /\ (a == d)%Q /\ (2 <= d <= 40)%Q.
Proof.
  assert (@processMatch statsPerformance sampleRating blueWins sampleOpenSkill
            ∅ sampleMatch samplePrevious = (sampleStore, sampleOutput, Ok tt))
    as Hrun by (vm_compute; reflexivity).
  eexists.
  edestruct (@X13_unknown_previous_counts_from_zero statsPerformance sampleRating
               blueWins sampleOpenSkill _ _ _ _ _ Hrun 1%nat)
    as (a & d & Ha & Hd & Hwon & _).
  - vm_compute. reflexivity.
  - left. vm_compute. reflexivity.
  - exists a, d. split; [vm_compute; reflexivity |].
    split; [exact Ha |]. split; [exact Hd |].
    apply Hwon. vm_compute. reflexivity.
Defined.

(** ** When processMatch returns *)

Lemma collectPerformances_dom {PM : PerformanceModule}
    (md rest : list MatchDetail) : forall acc perfs,
  collectPerformances md rest acc = Ok perfs ->
  forall id,
    is_Some (acc !! id) \/ (exists m, m ∈ rest /\ steamID (player m) = id) ->
    is_Some (perfs !! id).
Proof.
  induction rest as [| x rest IH]; intros acc perfs; simpl.
  - intros [= <-] id [Hacc | (m & Hm & _)]; [exact Hacc |].
    now apply elem_of_nil in Hm.
  - destruct (calculateIndividualPerformance x md) as [px |]; [| discriminate].
    simpl. intros Hrest id Hid. apply (IH _ _ Hrest).
    destruct Hid as [Hacc | (m & Hm & Hid)].
    + left. rewrite lookup_insert_is_Some.
      destruct (decide (steamID (player x) = id)); auto.
    + apply elem_of_cons in Hm as [-> | Hm]; [| right; eauto].
      left. rewrite <- Hid, lookup_insert_eq. eauto.
Qed.

Lemma prepare_ready
    {PM : PerformanceModule} {RM : RatingModule} {TM : TeamModule} {OS : OpenSkill}
    (st : gmap string Rating) (md : list MatchDetail)
    (prev : gmap string (option MatchDetail)) (st' : gmap string Rating)
    (p : Prepared) :
  prepare st md prev = (st', Ok p) ->
  loopSafe md (md, playerPerformances p)
  /\ length (blueRatings (context p)) = length (roster Blue md)
  /\ length (redRatings (context p)) = length (roster Red md).
Proof.
  intros Hprep.
  pose proof (prepare_inv _ _ _ _ _ Hprep) as (_ & _ & _ & _ & Hperfs & _).
  pose proof (prepare_store _ _ _ _ _ Hprep) as (-> & -> & _).
  split; [| split].
  - split; [reflexivity |]. split.
    + intros j m Hm. now exists m.
    + intros j m Hm. apply (collectPerformances_dom _ _ _ _ Hperfs). right.
      exists m. split; [| reflexivity]. apply list_elem_of_lookup. eauto.
  - rewrite teamRatings_length. apply deref_length, roster_valid.
  - rewrite teamRatings_length. apply deref_length, roster_valid.
Qed.

Section Safe.
Context {PM : PerformanceModule} {RM : RatingModule}.
Variable c : MatchContext.
Variable md : list MatchDetail.

(** An iteration goes through for a player in a first match, and for an
    established player whose two ratings are there when the evaluator scores
    every record. *)
Lemma playerStep_safe teamIdx team idx i s m0 :
  loopSafe md s ->
  md !! i = Some m0 ->
  (isFirstMatchOf (previousMatchDetails c !! steamID (player m0)) = true
   \/ (is_Some (if (teamIdx =? 0)%nat
                then blueRatings c !! idx else redRatings c !! idx)
       /\ is_Some (newRatingAt (newRatings c) teamIdx idx)
       /\ evaluatesAll PM)) ->
  exists s', playerStep c teamIdx team idx i s = Ok s' /\ loopSafe md s'.
Proof.
  intros (Hlen & Hsame & Hperfs) Hm0 Hcan. unfold playerStep.
  destruct (lookup_lt_is_Some_2 s.1 i) as [m Hm].
  { rewrite Hlen. now apply lookup_lt_Some in Hm0. }
  rewrite Hm. destruct (Hperfs i m Hm) as [perf Hperf].
  destruct (Hsame i m Hm) as (m0' & Hm0' & Hplayer).
  assert (m0' = m0) as -> by congruence.
  assert (exists o, playerMMR c teamIdx (deref s.1 team) idx m
                      (s.2 !! steamID (player m)) = Ok o) as [o Ho].
  { unfold playerMMR. rewrite Hperf, <- Hplayer.
    destruct Hcan as [-> | ([old Hold] & [new Hnew] & Htotal)]; [eauto |].
    destruct (isFirstMatchOf _); [eauto |].
    assert ((if (teamIdx =? 0)%nat then blueRatings c !! idx
             else redRatings c !! idx) = Some old) as -> by exact Hold.
    rewrite Hnew. simpl.
    destruct (calculateCarryAdjustment_total m (deref s.1 team) perf
                (isWinnerOf (winner c) teamIdx) Htotal) as [r ->].
    simpl. eauto. }
  rewrite Ho. simpl. eexists. split; [reflexivity |].
  split; [| split]; simpl.
  - now rewrite length_alter.
  - intros j mj. rewrite list_lookup_alter. destruct (decide (i = j)) as [<- | _].
    + rewrite Hm. simpl. intros [= <-]. exists m0. now split.
    + apply Hsame.
  - intros j mj. rewrite list_lookup_alter. destruct (decide (i = j)) as [<- | _].
    + rewrite Hm. simpl. intros [= <-]. simpl.
      rewrite lookup_insert_eq. eauto.
    + intros Hj. rewrite lookup_insert_is_Some.
      destruct (decide (steamID (player m) = steamID (player mj))); [auto |].
      right. split; [assumption | eauto].
Qed.

Lemma teamLoop_safe teamIdx team rest : forall idx s,
  loopSafe md s ->
  (forall n i, rest !! n = Some i ->
     exists m0,
       md !! i = Some m0
       /\ (isFirstMatchOf (previousMatchDetails c !! steamID (player m0)) = true
           \/ (is_Some (if (teamIdx =? 0)%nat
                        then blueRatings c !! (idx + n)%nat
                        else redRatings c !! (idx + n)%nat)
               /\ is_Some (newRatingAt (newRatings c) teamIdx (idx + n))
               /\ evaluatesAll PM))) ->
  exists s', teamLoop c teamIdx team idx rest s = (s', Ok tt) /\ loopSafe md s'.
Proof.
  induction rest as [| i rest IH]; intros idx s Hsafe Hrest; simpl; [eauto |].
  destruct (Hrest 0%nat i eq_refl) as (m0 & Hm0 & Hcan).
  rewrite Nat.add_0_r in Hcan.
  destruct (playerStep_safe teamIdx team idx i s m0 Hsafe Hm0 Hcan)
    as (s1 & -> & Hsafe1).
  apply IH; [exact Hsafe1 |].
  intros n j Hn. replace (S idx + n)%nat with (idx + S n)%nat by lia.
  now apply (Hrest (S n) j).
Qed.

End Safe.

Lemma isFirstMatchOf_null (previousMatchDetail : option (option MatchDetail)) :
  isFirstMatchOf previousMatchDetail = true <-> previousMatchDetail = Some None.
Proof.
  destruct previousMatchDetail as [[pm |] |]; simpl; split; congruence.
Qed.

(** X14.  When a match has passed the first part of [processMatch] and the
    evaluator scores every record: the call returns only if the oracle
    returned a rating for the place of every player who is not in a first
    match (otherwise it throws), and it does return if the oracle returned a
    rating for every place of the two rosters.  ([calculateInitialMMR] is
    then given a rating and is taken to return.) *)
Theorem X14_returning_needs_the_ratings
    {PM : PerformanceModule} {RM : RatingModule} {TM : TeamModule} {OS : OpenSkill}
    (st : gmap string Rating) (md : list MatchDetail)
    (prev : gmap string (option MatchDetail)) (st' : gmap string Rating)
    (p : Prepared) :
  prepare st md prev = (st', Ok p) ->
  evaluatesAll PM ->
  ((exists md', processMatch st md prev = (st', md', Ok tt)) ->
   forall teamIdx n i m,
     (teamIdx = 0 \/ teamIdx = 1)%nat ->
     teamAt p teamIdx !! n = Some i -> md !! i = Some m ->
     prev !! steamID (player m) <> Some None ->
     is_Some (newRatingAt (newRatings (context p)) teamIdx n))
  /\ ((forall teamIdx n i,
         (teamIdx = 0 \/ teamIdx = 1)%nat ->
         teamAt p teamIdx !! n = Some i ->
         is_Some (newRatingAt (newRatings (context p)) teamIdx n)) ->
      exists md', processMatch st md prev = (st', md', Ok tt)).
Proof.
  intros Hprep Htotal.
  pose proof (prepare_inv _ _ _ _ _ Hprep) as (Hblue & Hred & Hprev & _).
  pose proof (prepare_ready _ _ _ _ _ Hprep) as (Hsafe & Lblue & Lred).
  split.
  - intros [md' Hrun] teamIdx n i m Hidx Hn Hm Hest.
    apply processMatch_Ok_inv in Hrun as (p' & pf' & Hprep' & Hloop).
    rewrite Hprep in Hprep'. injection Hprep' as <-.
    assert (NoDup (blueTeam p ++ redTeam p)) as Hnodup.
    { rewrite Hblue, Hred. apply roster_NoDup. }
    destruct (mmrLoop_written _ _ _ _ _ Hloop Hnodup teamIdx n i Hn Hidx)
      as (s1 & m1 & o & (_ & Hrec & _) & Hm1 & Ho & _).
    destruct (Hrec i m Hm) as (m1' & Hm1' & Hsame1). simpl in Hm1'.
    assert (m1' = m1) as -> by congruence.
    destruct Hsame1 as (Hplayer & _).
    apply playerMMR_established in Ho as (perf & base & carry & _ & Hbase & _).
    + unfold convertRatingChangeToMMR in Hbase.
      destruct (newRatingAt _ _ _); [eauto | discriminate].
    + rewrite <- Hplayer, Hprev.
      destruct (isFirstMatchOf (prev !! steamID (player m))) eqn:E; [| reflexivity].
      now apply isFirstMatchOf_null in E.
  - intros Hratings. unfold processMatch. rewrite Hprep. unfold mmrLoop.
    assert (forall teamIdx n i,
              (teamIdx = 0 \/ teamIdx = 1)%nat ->
              teamAt p teamIdx !! n = Some i ->
              exists m0,
                md !! i = Some m0
                /\ (isFirstMatchOf
                      (previousMatchDetails (context p) !! steamID (player m0)) = true
                    \/ (is_Some (if (teamIdx =? 0)%nat
                                 then blueRatings (context p) !! (0 + n)%nat
                                 else redRatings (context p) !! (0 + n)%nat)
                        /\ is_Some (newRatingAt (newRatings (context p))
                                      teamIdx (0 + n))
                        /\ evaluatesAll PM))) as Hcan.
    { intros teamIdx n i Hidx Hn.
      assert (i < length md)%nat as Hi.
      { unfold teamAt in Hn. destruct Hidx as [-> | ->]; simpl in Hn;
          [rewrite Hblue in Hn; apply (roster_valid Blue)
          | rewrite Hred in Hn; apply (roster_valid Red)];
          apply list_elem_of_lookup; eauto. }
      destruct (lookup_lt_is_Some_2 md i Hi) as [m0 Hm0].
      exists m0. split; [exact Hm0 |]. rewrite Hprev.
      destruct (isFirstMatchOf (prev !! steamID (player m0))) eqn:E; [now left |].
      right. split; [| split; [| exact Htotal]].
      - apply lookup_lt_Some in Hn. unfold teamAt in Hn.
        destruct Hidx as [-> | ->]; simpl in Hn |- *; apply lookup_lt_is_Some;
          [rewrite Lblue, <- Hblue | rewrite Lred, <- Hred]; exact Hn.
      - apply (Hratings teamIdx n i Hidx Hn). }
    destruct (teamLoop_safe (context p) md 0 (blueTeam p) (blueTeam p) 0
                (md, playerPerformances p) Hsafe) as (s1 & -> & Hsafe1).
    { intros n i Hn. apply (Hcan 0%nat n i); [now left | exact Hn]. }
    destruct (teamLoop_safe (context p) md 1 (redTeam p) (redTeam p) 0 s1 Hsafe1)
      as (s2 & -> & _).
    { intros n i Hn. apply (Hcan 1%nat n i); [now right | exact Hn]. }
    eauto.
Qed.

(** X15.  For a player in a first match the conversion loop neither reads
    the old rating nor computes a carry adjustment.  So a match in which
    every player plays a first match, and for every place of which the
    oracle returned a rating, returns once the first part of [processMatch]
    is through, even if the evaluator would refuse the populations of the
    carry adjustment.  ([calculateInitialMMR] is given a rating and is taken
    to return.) *)
Theorem X15_first_matches_skip_the_carry
    {PM : PerformanceModule} {RM : RatingModule} {TM : TeamModule} {OS : OpenSkill}
    (st : gmap string Rating) (md : list MatchDetail)
    (prev : gmap string (option MatchDetail)) (st' : gmap string Rating)
    (p : Prepared) :
  prepare st md prev = (st', Ok p) ->
  (forall m, m ∈ md -> prev !! steamID (player m) = Some None) ->
  (forall teamIdx n i,
     (teamIdx = 0 \/ teamIdx = 1)%nat ->
     teamAt p teamIdx !! n = Some i ->
     is_Some (newRatingAt (newRatings (context p)) teamIdx n)) ->
  exists md', processMatch st md prev = (st', md', Ok tt).
Proof.
  intros Hprep Hfirst _.
  pose proof (prepare_inv _ _ _ _ _ Hprep) as (Hblue & Hred & Hprev & _).
  pose proof (prepare_ready _ _ _ _ _ Hprep) as (Hsafe & _).
  unfold processMatch. rewrite Hprep. unfold mmrLoop.
  assert (forall col n i,
            roster col md !! n = Some i ->
            exists m0,
              md !! i = Some m0
              /\ isFirstMatchOf
                   (previousMatchDetails (context p) !! steamID (player m0)) = true)
    as Hcan.
  { intros col n i Hn.
    assert (i ∈ roster col md) as Hi by (apply list_elem_of_lookup; eauto).
    apply roster_elem in Hi as (m0 & Hm0 & _).
    exists m0. split; [exact Hm0 |]. rewrite Hprev, (Hfirst m0); [reflexivity |].
    apply list_elem_of_lookup. eauto. }
  destruct (teamLoop_safe (context p) md 0 (blueTeam p) (blueTeam p) 0
              (md, playerPerformances p) Hsafe) as (s1 & -> & Hsafe1).
  { intros n i Hn. rewrite Hblue in Hn.
    destruct (Hcan Blue n i Hn) as (m0 & Hm0 & Hnull). eauto. }
  destruct (teamLoop_safe (context p) md 1 (redTeam p) (redTeam p) 0 s1 Hsafe1)
    as (s2 & -> & _).
  { intros n i Hn. rewrite Hred in Hn.
    destruct (Hcan Red n i Hn) as (m0 & Hm0 & Hnull). eauto. }
  eauto.
Qed.

(** With everybody established and the oracle that forgets ["b"], the call
    cannot return: the place of ["b"] has no rating. *)
Lemma X14_returning_needs_the_ratings_witness :
  ~ exists md',
      @processMatch statsPerformance sampleRating blueWins shortOpenSkill
        ∅ sampleMatch establishedPrevious = (shortRun.1.1, md', Ok tt).
Proof.
  assert (exists p,
            @prepare statsPerformance sampleRating blueWins shortOpenSkill
              ∅ sampleMatch establishedPrevious = (shortRun.1.1, Ok p))
    as (p & Hprep) by (eexists; vm_compute; reflexivity).
  pose proof (prepare_inv _ _ _ _ _ Hprep) as (Hblue & _).
  assert (teamAt p 0 !! 1%nat = Some 1%nat) as Hplace.
  { unfold teamAt. simpl. rewrite Hblue. reflexivity. }
  assert (evaluatesAll statsPerformance) as Htotal.
  { intros m population _. eexists. reflexivity. }
  pose proof Hprep as Hvalue. vm_compute in Hvalue.
  assert (newRatingAt (newRatings (context p)) 0 1 = None) as Hnone.
  { injection Hvalue as <-. reflexivity. }
  intros Hret.
  destruct (proj1 (@X14_returning_needs_the_ratings statsPerformance sampleRating
                     blueWins shortOpenSkill _ _ _ _ _ Hprep Htotal)
              Hret 0%nat 1%nat 1%nat (record "b" Blue 0.5)
              (or_introl eq_refl) Hplace eq_refl ltac:(discriminate))
    as [r Hr].
  congruence.
Defined.

(** Everybody plays a first match and the oracle answers in full: the call
    returns although the evaluator refuses the three records of a carry
    adjustment. *)
Lemma X15_first_matches_skip_the_carry_witness :
  exists md', firstRun = (firstRun.1.1, md', Ok tt).
Proof.
  assert (exists p,
            @prepare strictPerformance sampleRating blueWins sampleOpenSkill
              ∅ sampleMatch firstMatchPrevious = (firstRun.1.1, Ok p))
    as (p & Hprep) by (eexists; vm_compute; reflexivity).
  pose proof (prepare_inv _ _ _ _ _ Hprep) as (Hblue & Hred & _).
  pose proof Hprep as Hvalue. vm_compute in Hvalue.
  apply (@X15_first_matches_skip_the_carry strictPerformance sampleRating blueWins
           sampleOpenSkill _ _ _ _ _ Hprep).
  - intros m Hm.
    repeat (apply elem_of_cons in Hm as [-> | Hm]; [reflexivity |]).
    now apply elem_of_nil in Hm.
  - intros teamIdx n i Hidx Hn. unfold teamAt in Hn.
    assert (n < 2)%nat as Hlt.
    { apply lookup_lt_Some in Hn.
      destruct Hidx as [-> | ->]; simpl in Hn;
        [rewrite Hblue in Hn | rewrite Hred in Hn]; exact Hn. }
    injection Hvalue as <-.
    destruct Hidx as [-> | ->]; destruct n as [| [| n]];
      try (exfalso; lia); vm_compute; eauto.
Defined.

(** ** A failure of the main evaluation *)

Lemma collectPerformances_Err {PM : PerformanceModule}
    (md rest : list MatchDetail) (m : MatchDetail) (e : error) : forall acc,
  m ∈ rest -> calculateIndividualPerformance m md = Err e ->
  exists m' e',
    m' ∈ rest /\ calculateIndividualPerformance m' md = Err e'
    /\ collectPerformances md rest acc = Err e'.
Proof.
  induction rest as [| x rest IH]; intros acc Hm He.
  - now apply elem_of_nil in Hm.
  - simpl. destruct (calculateIndividualPerformance x md) as [px |] eqn:Hx.
    + apply elem_of_cons in Hm as [-> | Hm]; [congruence |].
      destruct (IH (<[steamID (player x) := px]> acc) Hm He)
        as (m' & e' & Hm' & He' & Hrest).
      exists m', e'. split; [now apply list_elem_of_further | auto].
    + exists x, e0. split; [apply list_elem_of_here | auto].
Qed.

(** X16.  Every record of the match is evaluated before the oracle is
    consulted.  If the evaluation of some record fails, [processMatch]
    throws an error of the evaluator, no record is written, and no rating is
    written back: the store has changed only in that the unseen players of
    the two rosters have got their initial ratings. *)
Theorem X16_evaluator_failure_stops_the_match
    {PM : PerformanceModule} {RM : RatingModule} {TM : TeamModule} {OS : OpenSkill}
    (st : gmap string Rating) (md : list MatchDetail)
    (prev : gmap string (option MatchDetail)) (m : MatchDetail) (e : error) :
  roster Blue md <> [] -> roster Red md <> [] ->
  m ∈ md -> calculateIndividualPerformance m md = Err e ->
  exists m' e',
    m' ∈ md /\ calculateIndividualPerformance m' md = Err e'
    /\ processMatch st md prev
       = ((teamRatings (teamRatings st (deref md (roster Blue md))).1
             (deref md (roster Red md))).1,
          md, Err e').
Proof.
  intros Hblue Hred Hm He.
  destruct (collectPerformances_Err md md m e ∅ Hm He)
    as (m' & e' & Hm' & He' & Hcollect).
  exists m', e'. split; [exact Hm' |]. split; [exact He' |].
  unfold processMatch, prepare, organizeTeams.
  destruct (roster Blue md) as [| b0 bs] eqn:Eblue; [congruence |].
  destruct (roster Red md) as [| r0 rs] eqn:Ered; [congruence |].
  destruct (teamRatings st (deref md (b0 :: bs))) as [ratings1 bR]. cbn [fst].
  destruct (teamRatings ratings1 (deref md (r0 :: rs))) as [ratings2 rR].
  now rewrite Hcollect.
Qed.

(** With the evaluator that never has enough data the sample match throws
    [InsufficientDataError] and leaves its four records as they were. *)
Lemma X16_evaluator_failure_stops_the_match_witness :
  exists e,
    (@processMatch failingPerformance sampleRating blueWins sampleOpenSkill
       ∅ sampleMatch samplePrevious).2 = Err e
    /\ (@processMatch failingPerformance sampleRating blueWins sampleOpenSkill
          ∅ sampleMatch samplePrevious).1.2 = sampleMatch.
Proof.
  destruct (@X16_evaluator_failure_stops_the_match failingPerformance sampleRating
              blueWins sampleOpenSkill ∅ sampleMatch samplePrevious
              (record "a" Blue 0.9) InsufficientDataError)
    as (m' & e' & _ & _ & Hrun).
  - discriminate.
  - discriminate.
  - apply list_elem_of_here.
  - reflexivity.
  - exists e'. now rewrite Hrun.
Defined.

(** ** A winner that is neither blue nor red *)

(** X17.  [processMatch] compares the winner with ['blue'] and takes
    everything else for a red win when it ranks the rosters for the oracle,
    but counts a roster as winner only for ['blue'] and ['red'].  So when
    [determineWinner] returns any other string, the oracle is asked to rank
    the red roster first, and every established player of both rosters gets
    a loser's delta, between -40 and -2. *)
Theorem X17_no_declared_winner
    {PM : PerformanceModule} {RM : RatingModule} {TM : TeamModule} {OS : OpenSkill}
    (st : gmap string Rating) (md : list MatchDetail)
    (prev : gmap string (option MatchDetail))
    (st' : gmap string Rating) (md' : list MatchDetail) :
  processMatch st md prev = (st', md', Ok tt) ->
  determineWinner (deref md (roster Blue md)) (deref md (roster Red md)) <> "blue" ->
  determineWinner (deref md (roster Blue md)) (deref md (roster Red md)) <> "red" ->
  exists p,
    prepare st md prev = (st', Ok p)
    /\ newRatings (context p)
       = rate [blueRatings (context p); redRatings (context p)] [2; 1]%nat
    /\ forall i m', md' !! i = Some m' ->
         isFirstMatchOf (prev !! steamID (player m')) = false ->
         exists d, mmrDelta m' = Some d /\ (-40 <= d <= -2)%Q.
Proof.
  intros Hrun Hblue Hred.
  apply processMatch_written in Hrun as (p & Hprep & Hall).
  exists p. split; [exact Hprep |].
  pose proof (prepare_inv _ _ _ _ _ Hprep)
    as (_ & _ & Hprev & Hwin & _ & Hrate & _).
  rewrite <- Hwin in Hblue, Hred.
  apply String.eqb_neq in Hblue, Hred.
  split; [now rewrite Hrate, Hblue |].
  intros i m' Hm' Hest.
  destruct (Hall i m' Hm') as (n & s1 & m & o & _ & _ & _ & _ & Ho & ->).
  simpl in Hest. rewrite <- Hprev in Hest.
  apply playerMMR_established in Ho as (perf & base & carry & _ & _ & _ & Hd & _);
    [| exact Hest].
  exists (finalDelta o). split; [reflexivity |]. rewrite Hd.
  assert (forall teamIdx, isWinnerOf (winner (context p)) teamIdx = false) as Hnobody.
  { intros teamIdx. unfold isWinnerOf. now rewrite Hblue, Hred. }
  rewrite !Hnobody. apply clampMMRDelta_loser.
Qed.

(** The sample match with the winner ["draw"]: ["a"], on the blue roster,
    gets a negative delta. *)
Lemma X17_no_declared_winner_witness :
  exists m' d,
    drawRun.1.2 !! 0%nat = Some m'
    /\ mmrDelta m' = Some d /\ (-40 <= d <= -2)%Q.
Proof.
  assert (@processMatch statsPerformance sampleRating nobodyWins sampleOpenSkill
            ∅ sampleMatch establishedPrevious = (drawRun.1.1, drawRun.1.2, Ok tt))
    as Hrun by (vm_compute; reflexivity).
  destruct (@X17_no_declared_winner statsPerformance sampleRating nobodyWins
              sampleOpenSkill _ _ _ _ _ Hrun)
    as (p & _ & _ & Hall).
  - discriminate.
  - discriminate.
  - eexists.
    edestruct (Hall 0%nat) as (d & Hd & Hrange).
    + vm_compute. reflexivity.
    + vm_compute. reflexivity.
    + exists d. split; [vm_compute; reflexivity |]. now split.
Defined.

(** ** The ratings the oracle is given *)

Lemma teamRatings_seen {RM : RatingModule} (team : list MatchDetail)
    (store : gmap string Rating) (n : nat) (m : MatchDetail) (r : Rating) :
  team !! n = Some m -> store !! steamID (player m) = Some r ->
  (teamRatings store team).2 !! n = Some r.
Proof.
  intros Hn Hr.
  destruct (Forall2_lookup_l _ _ _ _ _ (teamRatings_stored team store) Hn)
    as (r' & Hr' & Hstored).
  rewrite (teamRatings_grows team store _ _ Hr) in Hstored. congruence.
Qed.

Lemma teamRatings_unseen {RM : RatingModule} (team : list MatchDetail) :
  NoDup (map (fun m => steamID (player m)) team) ->
  forall store n m,
    team !! n = Some m -> store !! steamID (player m) = None ->
    (teamRatings store team).2 !! n
    = Some (calculateInitialRating (calculateSkillProxy m)).
Proof.
  induction team as [| m0 team IH]; intros Hnodup store n m Hn Hnone.
  - destruct n; discriminate.
  - simpl in Hnodup. apply NoDup_cons in Hnodup as [Hfresh Hnodup]. simpl.
    unfold getOrCreatePlayerRating. destruct n as [| n]; simpl in Hn.
    + injection Hn as ->. rewrite Hnone.
      now destruct (teamRatings _ team) as [ratings2 rs].
    + assert (steamID (player m0) <> steamID (player m)) as Hne.
      { intros Hid. apply Hfresh.
        change (map ?f ?l) with (f <$> l). apply list_elem_of_fmap.
        exists m. split; [exact Hid |]. apply list_elem_of_lookup. eauto. }
      destruct (store !! steamID (player m0)) as [r0 |] eqn:E.
      * specialize (IH Hnodup store n m Hn Hnone).
        now destruct (teamRatings store team) as [ratings2 rs].
      * specialize (IH Hnodup
                      (<[steamID (player m0) :=
                           calculateInitialRating (calculateSkillProxy m0)]> store)
                      n m Hn).
        rewrite lookup_insert_ne in IH by exact Hne. specialize (IH Hnone).
        now destruct (teamRatings _ team) as [ratings2 rs].
Qed.

(** X18.  The rating [processMatch] hands to the oracle for a player is the
    rating the store held for that player when the call began; a player the
    store did not know is given, in a match whose players are all different,
    the initial rating computed from the player's own record. *)
Theorem X18_oracle_gets_the_stored_ratings
    {PM : PerformanceModule} {RM : RatingModule} {TM : TeamModule} {OS : OpenSkill}
    (st : gmap string Rating) (md : list MatchDetail)
    (prev : gmap string (option MatchDetail)) (st' : gmap string Rating)
    (p : Prepared) :
  prepare st md prev = (st', Ok p) ->
  forall teamIdx n i m,
    (teamIdx = 0 \/ teamIdx = 1)%nat ->
    teamAt p teamIdx !! n = Some i -> md !! i = Some m ->
    let given :=
      (if (teamIdx =? 0)%nat
       then blueRatings (context p) else redRatings (context p)) !! n in
    (forall r, st !! steamID (player m) = Some r -> given = Some r)
    /\ (st !! steamID (player m) = None ->
        NoDup (map (fun m => steamID (player m)) md) ->
        given = Some (calculateInitialRating (calculateSkillProxy m))).
Proof.
  intros Hprep teamIdx n i m Hidx Hn Hm. cbv zeta.
  pose proof (prepare_inv _ _ _ _ _ Hprep) as (Hblue & Hred & _).
  pose proof (prepare_store _ _ _ _ _ Hprep) as (-> & -> & _).
  unfold teamAt in Hn. destruct Hidx as [-> | ->]; simpl in Hn |- *.
  - rewrite Hblue in Hn.
    pose proof (deref_roster_lookup Blue md n i m Hn Hm) as Hplace.
    split.
    + intros r Hr. exact (teamRatings_seen _ _ n m r Hplace Hr).
    + intros Hnone Hnodup.
      exact (teamRatings_unseen _ (roster_ids_NoDup Blue md Hnodup)
               _ n m Hplace Hnone).
  - rewrite Hred in Hn.
    pose proof (deref_roster_lookup Red md n i m Hn Hm) as Hplace.
    split.
    + intros r Hr. apply (teamRatings_seen _ _ n m r Hplace).
      now apply teamRatings_grows.
    + intros Hnone Hnodup.
      apply (teamRatings_unseen _ (roster_ids_NoDup Red md Hnodup) _ n m Hplace).
      rewrite teamRatings_frame; [exact Hnone |].
      intros m' Hm' Hid.
      apply (roster_ids_disjoint md m' m Hnodup);
        [exact Hm' | apply list_elem_of_lookup; eauto | exact Hid].
Qed.

(** The store rates ["a"] at (30, 2) before the sample match: this is the
    rating the oracle is given for the first place of the blue roster. *)
Lemma X18_oracle_gets_the_stored_ratings_witness :
  exists p,
    (@prepare statsPerformance sampleRating blueWins sampleOpenSkill
       seededStore sampleMatch samplePrevious).2 = Ok p
    /\ blueRatings (context p) !! 0%nat = Some (mkRating 30 2).
Proof.
  assert (exists st' p,
            @prepare statsPerformance sampleRating blueWins sampleOpenSkill
              seededStore sampleMatch samplePrevious = (st', Ok p))
    as (st' & p & Hprep) by (do 2 eexists; vm_compute; reflexivity).
  pose proof (prepare_inv _ _ _ _ _ Hprep) as (Hblue & _).
  assert (teamAt p 0 !! 0%nat = Some 0%nat) as Hplace.
  { unfold teamAt. simpl. rewrite Hblue. reflexivity. }
  exists p. split; [now rewrite Hprep |].
  apply (@X18_oracle_gets_the_stored_ratings statsPerformance sampleRating blueWins
           sampleOpenSkill _ _ _ _ _ Hprep 0%nat 0%nat 0%nat (record "a" Blue 0.9)
           (or_introl eq_refl) Hplace eq_refl).
  reflexivity.
Defined.
